(** * librsync-go: signature generation and decoding (signature.go)

    A shallow embedding of [CalcStrongSum], [Signature] and [ReadSignature]
    together with the parts of Go's [io], [bytes] and [encoding/binary]
    packages they call, and the properties of the signature format proved
    over that embedding.

    Conventions.
    - [uint32] values ([MagicNumber], [blockLen], [strongLen], weak sums) are
      numbers in [N]; the four-byte big-endian encoding reduces modulo 256
      byte by byte, as Go's [byte(v >> k)] does.
    - A Go call returning [(value, error)] is a [result]: [Ok v] for
      [(v, nil)], [Err e] for [(nil, e)].  A run-time panic is [Panicked].
    - [io.Reader] and [io.Writer] are interfaces: a type class each, whose
      method takes the stream's state and gives the new one back.  [Read]
      gets the length of the buffer it may fill and returns the bytes it
      put there ([n] is their number), which the [io.Reader] contract bounds
      by the buffer's length.
    - The two [for] loops have no bound in the source (a reader need never
      report [io.EOF]); they take a [fuel] argument and give [OutOfFuel]
      when it is used up. *)

From Stdlib Require Import NArith List Lia Bool.
From Stdlib Require Import Strings.Byte.
From stdpp Require Import gmap list.
Import ListNotations.

Local Open Scope N_scope.

(** ** Errors and results *)

(** The error values the code can see: the sentinels of package [io], any
    other error a stream returns, and the four [fmt.Errorf] messages of
    signature.go with their arguments. *)
Inductive error : Type :=
| EOF
| ErrUnexpectedEOF
| ErrStream (code : N)
| Errorf_Invalid_sigType (sigType : N)
| Errorf_invalid_sigType (sigType : N)
| Errorf_invalid_strongLen (strongLen sigType : N)
| Errorf_short_strong_hash (n : nat) (strongLen : N).

Inductive result (A : Type) : Type :=
| Ok (a : A)
| Err (e : error)
| Panicked
| OutOfFuel.

Arguments Ok {A} a.
Arguments Err {A} e.
Arguments Panicked {A}.
Arguments OutOfFuel {A}.

Definition is_nil_err (err : option error) : bool :=
  match err with None => true | Some _ => false end.

Definition is_EOF (err : option error) : bool :=
  match err with Some EOF => true | _ => false end.

(** ** Streams *)

Class Reader (R : Type) := Read : R -> nat -> list byte * option error * R.
Class Writer (W : Type) := Write : W -> list byte -> nat * option error * W.

(** [bytes.Reader]: [Read] reports [io.EOF] when nothing is left (also for
    an empty buffer), and otherwise copies as much as fits. *)
Record bytes_Reader : Type := NewReader { unread : list byte }.

#[export] Instance bytes_Reader_Read : Reader bytes_Reader := fun r k =>
  match unread r with
  | [] => ([], Some EOF, r)
  | _ :: _ => (firstn k (unread r), None, NewReader (skipn k (unread r)))
  end.

(** [bytes.Buffer] as a writer: [Write] appends and never fails. *)
Record bytes_Buffer : Type := NewBuffer { Bytes : list byte }.

#[export] Instance bytes_Buffer_Write : Writer bytes_Buffer := fun w p =>
  (length p, None, NewBuffer (Bytes w ++ p)).

(** [iotest.OneByteReader]: each non-empty [Read] asks the wrapped reader
    for one byte. *)
Record OneByteReader (R : Type) : Type := MkOneByteReader { one_r : R }.
Arguments MkOneByteReader {R} one_r.
Arguments one_r {R} _.

#[export] Instance OneByteReader_Read {R} `{Reader R} : Reader (OneByteReader R) :=
  fun r k =>
  match k with
  | O => ([], None, r)
  | S _ => let '(d, err, r') := Read (one_r r) 1 in (d, err, MkOneByteReader r')
  end.

(** A reader that hands out its last bytes together with [io.EOF], which
    the [io.Reader] contract allows (as [iotest.DataErrReader] and HTTP
    bodies do). *)
Record DataEOFReader : Type := MkDataEOFReader { pending : list byte }.

#[export] Instance DataEOFReader_Read : Reader DataEOFReader := fun r k =>
  match skipn k (pending r) with
  | [] => (firstn k (pending r), Some EOF, MkDataEOFReader [])
  | rest => (firstn k (pending r), None, MkDataEOFReader rest)
  end.

(** A reader that hands out its bytes as a [bytes.Reader] does and then
    fails with a given error where that one reports [io.EOF] (a
    connection that breaks; [io.MultiReader] of a [bytes.Reader] and an
    [iotest.ErrReader]). *)
Record FailingReader : Type :=
  MkFailingReader { available : list byte; failure : error }.

#[export] Instance FailingReader_Read : Reader FailingReader := fun r k =>
  match available r with
  | [] => ([], Some (failure r), r)
  | _ :: _ =>
      (firstn k (available r), None,
       MkFailingReader (skipn k (available r)) (failure r))
  end.

(** A writer that accepts a given number of [Write] calls and fails every
    later one (a sink that fills up, a connection that drops). *)
Record LimitedWriter : Type := MkLimitedWriter { calls_left : nat; accepted : list byte }.

#[export] Instance LimitedWriter_Write : Writer LimitedWriter := fun w p =>
  match calls_left w with
  | O => (O, Some (ErrStream 28), w)
  | S c => (length p, None, MkLimitedWriter c (accepted w ++ p))
  end.

(** ** encoding/binary, big endian *)

Definition byte_of_N (v : N) : byte :=
  match Byte.of_N (v mod 256) with Some b => b | None => x00 end.

(** [binary.BigEndian.PutUint32] *)
Definition PutUint32 (v : N) : list byte :=
  [byte_of_N (N.shiftr v 24); byte_of_N (N.shiftr v 16);
   byte_of_N (N.shiftr v 8); byte_of_N v].

(** [binary.BigEndian.Uint32] *)
Definition Uint32 (b : list byte) : N :=
  match b with
  | [b0; b1; b2; b3] =>
      N.lor (N.lor (N.lor (Byte.to_N b3) (N.shiftl (Byte.to_N b2) 8))
                   (N.shiftl (Byte.to_N b1) 16))
            (N.shiftl (Byte.to_N b0) 24)
  | _ => 0
  end.

Section Streams.
Context {R W : Type} `{Reader R} `{Writer W}.

(** [binary.Write(w, binary.BigEndian, v)] for a 32-bit [v]: one [Write]
    of the four bytes; only its error is returned. *)
Definition binary_Write (w : W) (v : N) : option error * W :=
  let '(_, err, w) := Write w (PutUint32 v) in (err, w).

(** The loop of [io.ReadAtLeast]:
    [for n < min && err == nil { nn, err = r.Read(buf[n:]); n += nn }],
    with [got] the [n] bytes read so far. *)
Fixpoint ReadAtLeast_loop (fuel : nat) (r : R) (len min : nat)
    (got : list byte) (err : option error)
    : result (list byte * option error) * R :=
  if (length got <? min)%nat && is_nil_err err then
    match fuel with
    | O => (OutOfFuel, r)
    | S fuel' =>
        let '(d, err, r) := Read r (len - length got)%nat in
        ReadAtLeast_loop fuel' r len min (got ++ d) err
    end
  else (Ok (got, err), r).

(** [io.ReadFull(r, buf)] with [len(buf) = len]. *)
Definition io_ReadFull (fuel : nat) (r : R) (len : nat)
    : result (list byte * option error) * R :=
  let '(res, r) := ReadAtLeast_loop fuel r len len [] None in
  match res with
  | Ok (got, err) =>
      if (len <=? length got)%nat then (Ok (got, None), r)
      else if (0 <? length got)%nat && is_EOF err
           then (Ok (got, Some ErrUnexpectedEOF), r)
           else (Ok (got, err), r)
  | Err e => (Err e, r)
  | Panicked => (Panicked, r)
  | OutOfFuel => (OutOfFuel, r)
  end.

(** [binary.Read(r, binary.BigEndian, &v)] for a 32-bit [v]. *)
Definition binary_Read (fuel : nat) (r : R) : result N * R :=
  let '(res, r) := io_ReadFull fuel r 4 in
  match res with
  | Ok (bs, None) => (Ok (Uint32 bs), r)
  | Ok (_, Some e) => (Err e, r)
  | Err e => (Err e, r)
  | Panicked => (Panicked, r)
  | OutOfFuel => (OutOfFuel, r)
  end.
End Streams.

(** ** signature.go *)

Definition BLAKE2_SUM_LENGTH : N := 32.
Definition MD4_SUM_LENGTH : N := 16.

Record SignatureType : Type := MkSignatureType {
  sigType : N;
  blockLen : N;
  strongLen : N;
  strongSigs : list (list byte);
  weak2block : gmap N nat
}.

(** The slice expression [s[:n]]: a run-time panic when [n] exceeds the
    capacity of [s].  The two places that use it slice a [[32]byte] array
    and the result of [md4]'s [Sum(nil)], whose capacity is its length. *)
Definition slice_to (s : list byte) (n : N) : result (list byte) :=
  if (N.to_nat n <=? length s)%nat then Ok (firstn (N.to_nat n) s) else Panicked.

(** Lines 94-95, the two assignments that record a block:
    [ret.weak2block[weak] = len(ret.strongSigs)] and
    [ret.strongSigs = append(ret.strongSigs, strong)]. *)
Definition add_block (ret : SignatureType) (weak : N) (strong : list byte)
    : SignatureType :=
  {| sigType := sigType ret;
     blockLen := blockLen ret;
     strongLen := strongLen ret;
     strongSigs := strongSigs ret ++ [strong];
     weak2block := <[weak := length (strongSigs ret)]> (weak2block ret) |}.

Section SignatureGo.
(** What signature.go takes from elsewhere: the two digests of
    golang.org/x/crypto ([blake2b.Sum256], and [md4.New], [Write],
    [Sum(nil)] in one), the rolling checksum and the two magic numbers
    of the package's other files. *)
Variable blake2b_Sum256 : list byte -> list byte.
Variable md4_Sum : list byte -> list byte.
Variable WeakChecksum : list byte -> N.
Variables BLAKE2_SIG_MAGIC MD4_SIG_MAGIC : N.

Definition CalcStrongSum (data : list byte) (sigType strongLen : N)
    : result (list byte) :=
  if sigType =? BLAKE2_SIG_MAGIC then slice_to (blake2b_Sum256 data) strongLen
  else if sigType =? MD4_SIG_MAGIC then slice_to (md4_Sum data) strongLen
  else Err (Errorf_Invalid_sigType sigType).

(** The full-length digest a recognised tag selects, and the (weak,
    strong) pair of a block under a given configuration. *)
Definition full_digest (sigType : N) (data : list byte) : list byte :=
  if sigType =? BLAKE2_SIG_MAGIC then blake2b_Sum256 data else md4_Sum data.

Definition block_entry (sigType strongLen : N) (data : list byte)
    : N * list byte :=
  (WeakChecksum data, firstn (N.to_nat strongLen) (full_digest sigType data)).

(** A recognised tag with a strong length its digest can supply. *)
Definition valid_config (sigType strongLen : N) : Prop :=
  (sigType = BLAKE2_SIG_MAGIC /\ strongLen <= BLAKE2_SUM_LENGTH) \/
  (sigType = MD4_SIG_MAGIC /\ strongLen <= MD4_SUM_LENGTH).

Section Build.
Context {R W : Type} `{Reader R} `{Writer W}.

(** The [for] loop of [Signature] (lines 76-96); [strong, _ := ...]
    drops the error of [CalcStrongSum] and [output.Write(strong)] both
    of its results. *)
Fixpoint Signature_loop (fuel : nat) (input : R) (output : W)
    (blockLen strongLen sigType : N) (ret : SignatureType)
    : result SignatureType * R * W :=
  match fuel with
  | O => (OutOfFuel, input, output)
  | S fuel' =>
      let '(data, err, input) := Read input (N.to_nat blockLen) in
      match err with
      | Some EOF => (Ok ret, input, output)
      | Some e => (Err e, input, output)
      | None =>
          let weak := WeakChecksum data in
          let '(err, output) := binary_Write output weak in
          match err with
          | Some e => (Err e, input, output)
          | None =>
              match CalcStrongSum data sigType strongLen with
              | Panicked => (Panicked, input, output)
              | OutOfFuel => (OutOfFuel, input, output)
              | res =>
                  let strong := match res with Ok s => s | _ => [] end in
                  let '(_, _, output) := Write output strong in
                  Signature_loop fuel' input output blockLen strongLen sigType
                    (add_block ret weak strong)
              end
          end
      end
  end.

Definition Signature (fuel : nat) (input : R) (output : W)
    (blockLen strongLen sigType : N) : result SignatureType * R * W :=
  match (if sigType =? BLAKE2_SIG_MAGIC then Some BLAKE2_SUM_LENGTH
         else if sigType =? MD4_SIG_MAGIC then Some MD4_SUM_LENGTH
         else None) with
  | None => (Err (Errorf_invalid_sigType sigType), input, output)
  | Some maxStrongLen =>
      if maxStrongLen <? strongLen
      then (Err (Errorf_invalid_strongLen strongLen sigType), input, output)
      else
        let '(err, output) := binary_Write output sigType in
        match err with
        | Some e => (Err e, input, output)
        | None =>
        let '(err, output) := binary_Write output blockLen in
        match err with
        | Some e => (Err e, input, output)
        | None =>
        let '(err, output) := binary_Write output strongLen in
        match err with
        | Some e => (Err e, input, output)
        | None =>
            Signature_loop fuel input output blockLen strongLen sigType
              (MkSignatureType sigType blockLen strongLen [] ∅)
        end end end
  end.
End Build.

Section Decode.
Context {R : Type} `{Reader R}.

(** The [for] loop of [ReadSignature] (lines 124-144). *)
Fixpoint ReadSignature_loop (fuel : nat) (r : R) (strongLen : N)
    (strongSigs : list (list byte)) (weak2block : gmap N nat)
    : result (list (list byte) * gmap N nat) * R :=
  match fuel with
  | O => (OutOfFuel, r)
  | S fuel' =>
      let '(res, r) := binary_Read fuel' r in
      match res with
      | Err EOF => (Ok (strongSigs, weak2block), r)
      | Err e => (Err e, r)
      | Panicked => (Panicked, r)
      | OutOfFuel => (OutOfFuel, r)
      | Ok weakSum =>
          let '(strongSum, err, r) := Read r (N.to_nat strongLen) in
          match err with
          | Some e => (Err e, r)
          | None =>
              if negb (length strongSum =? N.to_nat strongLen)%nat
              then (Err (Errorf_short_strong_hash (length strongSum) strongLen), r)
              else ReadSignature_loop fuel' r strongLen
                     (strongSigs ++ [strongSum])
                     (<[weakSum := length strongSigs]> weak2block)
          end
      end
  end.

Definition ReadSignature (fuel : nat) (r : R) : result SignatureType * R :=
  let '(res, r) := binary_Read fuel r in
  match res with
  | Err e => (Err e, r) | Panicked => (Panicked, r) | OutOfFuel => (OutOfFuel, r)
  | Ok magic =>
  let '(res, r) := binary_Read fuel r in
  match res with
  | Err e => (Err e, r) | Panicked => (Panicked, r) | OutOfFuel => (OutOfFuel, r)
  | Ok blockLen =>
  let '(res, r) := binary_Read fuel r in
  match res with
  | Err e => (Err e, r) | Panicked => (Panicked, r) | OutOfFuel => (OutOfFuel, r)
  | Ok strongLen =>
  let '(res, r) := ReadSignature_loop fuel r strongLen [] ∅ in
  match res with
  | Err e => (Err e, r) | Panicked => (Panicked, r) | OutOfFuel => (OutOfFuel, r)
  | Ok (strongSigs, weak2block) =>
      (Ok (MkSignatureType magic blockLen strongLen strongSigs weak2block), r)
  end end end end.
End Decode.

(** ** The blocks of a run and the wire format *)

Section Blocks.
Context {R : Type} `{Reader R}.

(** The successive [input.Read(block)] calls of the build loop on their
    own: the data of the calls that returned no error, how the sequence
    ended ([Ok tt] for [io.EOF]), and the reader left behind. *)
Fixpoint read_blocks (fuel : nat) (input : R) (len : nat)
    : list (list byte) * result unit * R :=
  match fuel with
  | O => ([], OutOfFuel, input)
  | S fuel' =>
      let '(data, err, input) := Read input len in
      match err with
      | Some EOF => ([], Ok tt, input)
      | Some e => ([], Err e, input)
      | None =>
          let '(blocks, res, input) := read_blocks fuel' input len in
          (data :: blocks, res, input)
      end
  end.
End Blocks.

(** One record of the format: weak sum, then strong sum. *)
Definition encode_record (e : N * list byte) : list byte :=
  PutUint32 (fst e) ++ snd e.

Definition encode_records (entries : list (N * list byte)) : list byte :=
  flat_map encode_record entries.

Definition encode_header (magic blockLen strongLen : N) : list byte :=
  PutUint32 magic ++ PutUint32 blockLen ++ PutUint32 strongLen.

(** Recording a sequence of (weak, strong) pairs, as both loops do. *)
Definition add_entry (ret : SignatureType) (e : N * list byte) : SignatureType :=
  add_block ret (fst e) (snd e).

Definition add_entries (ret : SignatureType) (entries : list (N * list byte))
    : SignatureType :=
  fold_left add_entry entries ret.

(** A byte sequence cut into pieces of [len] bytes, the last one shorter
    when the length is no multiple of [len]. *)
Fixpoint chunks_aux (fuel len : nat) (l : list byte) : list (list byte) :=
  match fuel with
  | O => []
  | S fuel' =>
      match l with
      | [] => []
      | _ :: _ => firstn len l :: chunks_aux fuel' len (skipn len l)
      end
  end.

Definition chunks (len : nat) (l : list byte) : list (list byte) :=
  chunks_aux (length l) len l.

(** A record as the format has it: a 32-bit weak sum and a strong sum of
    exactly [sl] bytes. *)
Definition wf_entry (sl : N) (e : N * list byte) : Prop :=
  fst e < 2 ^ 32 /\ length (snd e) = N.to_nat sl.

(** The errors decoding an in-memory stream can end with. *)
Definition decode_error (e : error) : Prop :=
  e = EOF \/ e = ErrUnexpectedEOF \/
  exists n sl, e = Errorf_short_strong_hash n sl.

(** An error is the reader's own when some [Read] of it returns it. *)
Definition reader_error (R : Type) `{Reader R} (e : error) : Prop :=
  exists (r : R) k d r', Read r k = (d, Some e, r').

(** ** Sample inputs

    Two short inputs, and stand-ins for what signature.go takes from
    elsewhere, to run the development on concrete data: digests with
    outputs of 32 and 16 bytes, a 32-bit checksum (the byte sum, so that
    blocks with the same bytes in another order collide), and librsync's
    two magic numbers. *)
Definition abcdwxyz : list byte := [x61; x62; x63; x64; x77; x78; x79; x7a].
Definition abcde : list byte := [x61; x62; x63; x64; x65].
Definition abbaab : list byte := [x61; x62; x62; x61; x61; x62].

Definition sample_Sum256 (d : list byte) : list byte :=
  firstn 32 (d ++ repeat x00 32).
Definition sample_md4 (d : list byte) : list byte :=
  firstn 16 (rev d ++ repeat xff 16).
Definition sample_weak (d : list byte) : N :=
  fold_left (fun acc b => (acc + Byte.to_N b) mod 2 ^ 32) d 0.
Definition RS_BLAKE2_SIG_MAGIC : N := 0x72730137.
Definition RS_MD4_SIG_MAGIC : N := 0x72730136.

(** * Properties *)

(** What the types of the Go code give: [blake2b.Sum256] returns a
    [[32]byte], MD4 a digest of 16 bytes, [WeakChecksum] a [uint32].  (That
    the two magic numbers differ, as the labels of one [switch] must, and
    that a tag or a block length is a [uint32], is stated where it is
    used.) *)
Hypothesis blake2b_len : forall d, length (blake2b_Sum256 d) = 32%nat.
Hypothesis md4_len : forall d, length (md4_Sum d) = 16%nat.
Hypothesis weak_u32 : forall d, WeakChecksum d < 2 ^ 32.

Set Default Proof Using "Type".


(** ** Big-endian encoding *)

Lemma to_N_byte_of_N (v : N) : Byte.to_N (byte_of_N v) = v mod 256.
Proof.
  unfold byte_of_N. destruct (Byte.of_N (v mod 256)) as [b|] eqn:E.
  - by apply Byte.to_of_N.
  - apply Byte.of_N_None_iff in E.
    pose proof (N.mod_upper_bound v 256). lia.
Qed.

Lemma testbit_byte_at (v k n : N) :
  N.testbit (N.shiftl (N.shiftr v k mod 256) k) n =
  (k <=? n) && (n <? k + 8) && N.testbit v n.
Proof.
  change 256 with (2 ^ 8).
  destruct (N.leb_spec k n) as [Hk|Hk]; simpl.
  - rewrite N.shiftl_spec_high' by done.
    destruct (N.ltb_spec n (k + 8)) as [Hn|Hn]; simpl.
    + rewrite N.mod_pow2_bits_low by lia.
      rewrite N.shiftr_spec'. f_equal. lia.
    + rewrite N.mod_pow2_bits_high by lia. done.
  - rewrite N.shiftl_spec_low by done. done.
Qed.

Lemma Uint32_PutUint32 (v : N) : v < 2 ^ 32 -> Uint32 (PutUint32 v) = v.
Proof.
  intros Hv. unfold PutUint32, Uint32. rewrite !to_N_byte_of_N.
  rewrite <- (N.shiftl_0_r (v mod 256)).
  rewrite <- (N.shiftr_0_r v) at 1.
  apply N.bits_inj. intros n.
  rewrite !N.lor_spec, !testbit_byte_at.
  destruct (N.ltb_spec n 32) as [Hn|Hn].
  - destruct (N.testbit v n); [|by rewrite !andb_false_r].
    rewrite !andb_true_r.
    destruct (N.ltb_spec n 8), (N.ltb_spec n 16), (N.ltb_spec n 24);
      repeat match goal with
             | |- context [?a <=? ?b] => destruct (N.leb_spec a b)
             | |- context [?a <? ?b] => destruct (N.ltb_spec a b)
             end; simpl; try done; lia.
  - assert (N.testbit v n = false) as ->.
    { destruct (N.eq_dec v 0) as [->|Hz]; [apply N.bits_0|].
      apply N.bits_above_log2. apply N.log2_lt_pow2; [lia|].
      eapply N.lt_le_trans; [exact Hv|]. apply N.pow_le_mono_r; lia. }
    by rewrite !andb_false_r.
Qed.

(** ** Reading from streams *)

Section StreamFacts.
Context {R : Type} `{Reader R}.

Lemma ReadAtLeast_loop_done fuel (r : R) len min got err :
  (length got <? min)%nat && is_nil_err err = false ->
  ReadAtLeast_loop fuel r len min got err = (Ok (got, err), r).
Proof. intros Hc. destruct fuel; simpl; by rewrite Hc. Qed.

Lemma ReadAtLeast_loop_step fuel (r : R) len min got :
  (length got < min)%nat ->
  ReadAtLeast_loop (S fuel) r len min got None =
    let '(d, err, r) := Read r (len - length got)%nat in
    ReadAtLeast_loop fuel r len min (got ++ d) err.
Proof.
  intros Hlt. simpl.
  destruct (Nat.ltb_spec (length got) min); [done | lia].
Qed.

Lemma ReadAtLeast_loop_no_Err fuel (r : R) len min got err e r' :
  ReadAtLeast_loop fuel r len min got err <> (Err e, r').
Proof.
  revert r got err. induction fuel as [|fuel IH]; intros r got err; simpl.
  - by destruct ((length got <? min)%nat && is_nil_err err).
  - destruct ((length got <? min)%nat && is_nil_err err); [|done].
    destruct (Read r (len - length got)%nat) as [[d err1] r1]. apply IH.
Qed.
End StreamFacts.

Lemma binary_Read_bytes4 fuel b0 b1 b2 b3 rest :
  binary_Read (S fuel) (NewReader (b0 :: b1 :: b2 :: b3 :: rest)) =
    (Ok (Uint32 [b0; b1; b2; b3]), NewReader rest).
Proof.
  unfold binary_Read, io_ReadFull.
  rewrite ReadAtLeast_loop_step by (simpl; lia).
  cbn [Read bytes_Reader_Read unread length Nat.sub firstn skipn app].
  rewrite ReadAtLeast_loop_done by done. done.
Qed.

Lemma binary_Read_PutUint32 fuel v rest :
  v < 2 ^ 32 ->
  binary_Read (S fuel) (NewReader (PutUint32 v ++ rest)) = (Ok v, NewReader rest).
Proof.
  intros Hv. rewrite <- (Uint32_PutUint32 v Hv) at 2.
  apply binary_Read_bytes4.
Qed.

Lemma binary_Read_bytes_nil fuel :
  binary_Read (S fuel) (NewReader []) = (Err EOF, NewReader []).
Proof.
  unfold binary_Read, io_ReadFull.
  rewrite ReadAtLeast_loop_step by (simpl; lia).
  cbn [Read bytes_Reader_Read unread length Nat.sub firstn skipn app].
  rewrite ReadAtLeast_loop_done by done. done.
Qed.

(** On a [bytes.Reader] the only error [ReadAtLeast] can see is [io.EOF]. *)
Lemma ReadAtLeast_loop_bytes_err fuel l len min got err got' err' r' :
  ReadAtLeast_loop fuel (NewReader l) len min got err = (Ok (got', err'), r') ->
  err = None \/ err = Some EOF ->
  err' = None \/ err' = Some EOF.
Proof.
  revert l got err. induction fuel as [|fuel IH]; intros l got err; simpl.
  - destruct ((length got <? min)%nat && is_nil_err err); [done|].
    intros [= <- <- <-]. done.
  - destruct ((length got <? min)%nat && is_nil_err err).
    + unfold Read, bytes_Reader_Read. simpl. destruct l as [|b l]; intros Hl _.
      * eapply IH; [exact Hl | by right].
      * eapply IH; [exact Hl | by left].
    + intros [= <- <- <-]. done.
Qed.

Lemma binary_Read_bytes_err fuel l e r' :
  binary_Read fuel (NewReader l) = (Err e, r') ->
  e = EOF \/ e = ErrUnexpectedEOF.
Proof.
  unfold binary_Read, io_ReadFull.
  destruct (ReadAtLeast_loop fuel (NewReader l) 4 4 [] None) as [res r] eqn:E.
  destruct res as [[got err]| e0 | |]; try done;
    [|by apply ReadAtLeast_loop_no_Err in E].
  apply ReadAtLeast_loop_bytes_err in E; [|by left].
  destruct (4 <=? length got)%nat; [done|].
  destruct ((0 <? length got)%nat && is_EOF err).
  - intros [= <- <-]. by right.
  - destruct E as [-> | ->]; [done|]. intros [= <- <-]. by left.
Qed.

(** ** Recording entries *)

Lemma add_entries_snoc ret l e :
  add_entries ret (l ++ [e]) = add_entry (add_entries ret l) e.
Proof. unfold add_entries. by rewrite fold_left_app. Qed.

Lemma add_entries_header ret l :
  sigType (add_entries ret l) = sigType ret /\
  blockLen (add_entries ret l) = blockLen ret /\
  strongLen (add_entries ret l) = strongLen ret.
Proof.
  revert ret. induction l as [|e l IH]; intros ret; [done|].
  simpl. destruct (IH (add_entry ret e)) as (-> & -> & ->). done.
Qed.

Lemma add_entries_strongSigs ret l :
  strongSigs (add_entries ret l) = strongSigs ret ++ map snd l.
Proof.
  revert ret. induction l as [|e l IH]; intros ret; simpl.
  - by rewrite app_nil_r.
  - rewrite IH. simpl. by rewrite <- app_assoc.
Qed.

(** ** The build loop *)

Lemma full_digest_length st sl d :
  valid_config st sl -> (N.to_nat sl <= length (full_digest st d))%nat.
Proof using blake2b_len md4_len.
  unfold valid_config, full_digest, BLAKE2_SUM_LENGTH, MD4_SUM_LENGTH.
  intros [[-> Hsl] | [-> Hsl]].
  - rewrite N.eqb_refl, blake2b_len. lia.
  - destruct (MD4_SIG_MAGIC =? BLAKE2_SIG_MAGIC).
    + rewrite blake2b_len. lia.
    + rewrite md4_len. lia.
Qed.

Lemma CalcStrongSum_valid st sl d :
  valid_config st sl ->
  CalcStrongSum d st sl = Ok (firstn (N.to_nat sl) (full_digest st d)).
Proof using blake2b_len md4_len.
  intros Hv. pose proof (full_digest_length st sl d Hv) as Hlen.
  unfold CalcStrongSum, slice_to.
  unfold full_digest in *.
  destruct (st =? BLAKE2_SIG_MAGIC) eqn:E1.
  - destruct (Nat.leb_spec (N.to_nat sl) (length (blake2b_Sum256 d))); [done|lia].
  - destruct Hv as [[-> _] | [-> _]]; [by rewrite N.eqb_refl in E1|].
    rewrite N.eqb_refl.
    destruct (Nat.leb_spec (N.to_nat sl) (length (md4_Sum d))); [done|lia].
Qed.

Lemma block_entry_length st sl d :
  valid_config st sl -> length (snd (block_entry st sl d)) = N.to_nat sl.
Proof using blake2b_len md4_len.
  intros Hv. simpl. rewrite length_firstn.
  pose proof (full_digest_length st sl d Hv). lia.
Qed.

Section WithReader.
Context {R : Type} `{Reader R}.

Lemma Signature_loop_buffer fuel (input : R) out B sl st ret :
  valid_config st sl ->
  Signature_loop fuel input (NewBuffer out) B sl st ret =
    let '(blocks, res, input') := read_blocks fuel input (N.to_nat B) in
    (match res with
     | Ok _ => Ok (add_entries ret (map (block_entry st sl) blocks))
     | Err e => Err e
     | Panicked => Panicked
     | OutOfFuel => OutOfFuel
     end, input',
     NewBuffer (out ++ encode_records (map (block_entry st sl) blocks))).
Proof using blake2b_len md4_len.
  intros Hv. revert input out ret.
  induction fuel as [|fuel IH]; intros input out ret; simpl.
  - by rewrite app_nil_r.
  - destruct (Read input (N.to_nat B)) as [[data err] input1].
    destruct err as [e|].
    + destruct e; simpl; by rewrite app_nil_r.
    + unfold binary_Write, Write, bytes_Buffer_Write. simpl.
      rewrite (CalcStrongSum_valid st sl data Hv). simpl.
      rewrite IH.
      destruct (read_blocks fuel input1 (N.to_nat B)) as [[blocks res] input2].
      simpl. unfold encode_record, add_entry, block_entry. simpl.
      by rewrite <- !app_assoc.
Qed.

Lemma Signature_buffer fuel (input : R) out B sl st :
  valid_config st sl ->
  Signature fuel input (NewBuffer out) B sl st =
    let '(blocks, res, input') := read_blocks fuel input (N.to_nat B) in
    (match res with
     | Ok _ => Ok (add_entries (MkSignatureType st B sl [] ∅)
                     (map (block_entry st sl) blocks))
     | Err e => Err e
     | Panicked => Panicked
     | OutOfFuel => OutOfFuel
     end, input',
     NewBuffer (out ++ encode_header st B sl
                    ++ encode_records (map (block_entry st sl) blocks))).
Proof using blake2b_len md4_len.
  intros Hv. unfold Signature.
  assert ((if st =? BLAKE2_SIG_MAGIC then Some BLAKE2_SUM_LENGTH
           else if st =? MD4_SIG_MAGIC then Some MD4_SUM_LENGTH else None)
          = Some (if st =? BLAKE2_SIG_MAGIC then BLAKE2_SUM_LENGTH
                  else MD4_SUM_LENGTH)) as ->.
  { destruct (st =? BLAKE2_SIG_MAGIC) eqn:E1; [done|].
    destruct Hv as [[-> _] | [-> _]]; [by rewrite N.eqb_refl in E1|].
    by rewrite N.eqb_refl. }
  assert (((if st =? BLAKE2_SIG_MAGIC then BLAKE2_SUM_LENGTH
            else MD4_SUM_LENGTH) <? sl) = false) as ->.
  { apply N.ltb_ge.
    unfold valid_config, BLAKE2_SUM_LENGTH, MD4_SUM_LENGTH in *.
    destruct (st =? BLAKE2_SIG_MAGIC) eqn:E1.
    - destruct Hv as [[_ ?] | [_ ?]]; lia.
    - destruct Hv as [[-> _] | [_ ?]]; [by rewrite N.eqb_refl in E1|done]. }
  unfold binary_Write, Write, bytes_Buffer_Write. simpl.
  rewrite Signature_loop_buffer by done.
  destruct (read_blocks fuel input (N.to_nat B)) as [[blocks res] input2].
  unfold encode_header. by rewrite <- !app_assoc.
Qed.
End WithReader.

(** ** Blocks of an in-memory input *)

Lemma chunks_aux_fuel fuel len (l : list byte) :
  (0 < len)%nat -> (length l <= fuel)%nat ->
  chunks_aux fuel len l = chunks len l.
Proof.
  intros Hlen. unfold chunks.
  remember (length l) as n eqn:Hn.
  revert fuel l Hn. induction n as [n IH] using lt_wf_ind.
  intros fuel l Hn Hf. destruct l as [|b l].
  - subst n. by destruct fuel.
  - simpl in Hn. subst n. destruct fuel as [|fuel]; [simpl in Hf; lia|].
    cbn [chunks_aux]. f_equal.
    assert (length (skipn len (b :: l)) <= length l)%nat as Hs.
    { rewrite length_skipn. simpl. lia. }
    rewrite (IH (length (skipn len (b :: l)))
                ltac:(lia) fuel _ eq_refl ltac:(simpl in Hf; lia)).
    by rewrite (IH (length (skipn len (b :: l)))
                   ltac:(lia) (length l) _ eq_refl Hs).
Qed.

Lemma chunks_cons len b (l : list byte) :
  (0 < len)%nat ->
  chunks len (b :: l) = firstn len (b :: l) :: chunks len (skipn len (b :: l)).
Proof.
  intros Hlen. unfold chunks at 1. cbn [length chunks_aux]. f_equal.
  apply chunks_aux_fuel; [done|]. rewrite length_skipn. simpl. lia.
Qed.

Lemma read_blocks_bytes fuel len (l : list byte) :
  (0 < len)%nat -> (length l < fuel)%nat ->
  read_blocks fuel (NewReader l) len = (chunks len l, Ok tt, NewReader []).
Proof.
  intros Hlen. revert l. induction fuel as [|fuel IH]; intros l Hf; [lia|].
  destruct l as [|b l]; [done|].
  cbn [read_blocks Read bytes_Reader_Read unread].
  rewrite IH.
  - by rewrite chunks_cons.
  - rewrite length_skipn. simpl in *. lia.
Qed.

Lemma chunks_concat len (l : list byte) :
  (0 < len)%nat -> concat (chunks len l) = l.
Proof.
  intros Hlen. remember (length l) as n eqn:Hn.
  revert l Hn. induction n as [n IH] using lt_wf_ind. intros l Hn.
  destruct l as [|b l]; [done|].
  rewrite chunks_cons by done. cbn [concat].
  rewrite (IH (length (skipn len (b :: l)))); [apply firstn_skipn| |done].
  rewrite length_skipn. subst n. simpl. lia.
Qed.

Lemma chunks_length len (l : list byte) :
  (0 < len)%nat ->
  length (chunks len l) = ((length l + len - 1) / len)%nat.
Proof.
  intros Hlen. remember (length l) as n eqn:Hn.
  revert l Hn. induction n as [n IH] using lt_wf_ind. intros l Hn.
  destruct l as [|b l].
  - subst n. simpl. symmetry. apply Nat.div_small. lia.
  - rewrite chunks_cons by done. cbn [length].
    rewrite (IH (length (skipn len (b :: l)))
                ltac:(rewrite length_skipn; subst n; simpl; lia) _ eq_refl).
    rewrite length_skipn. rewrite <- Hn.
    assert (1 <= n)%nat by (subst n; simpl; lia).
    destruct (Nat.le_gt_cases n len) as [Hle|Hgt].
    + replace (n - len)%nat with 0%nat by lia.
      rewrite (Nat.div_small (0 + len - 1) len) by lia.
      apply (Nat.div_unique _ _ 1%nat (n - 1)%nat); lia.
    + replace (n + len - 1)%nat with ((n - len + len - 1) + 1 * len)%nat by lia.
      rewrite Nat.div_add by lia. lia.
Qed.

(** Every block has between 1 and [len] bytes, and all but the last have
    exactly [len]. *)
Lemma chunks_sizes len (l : list byte) :
  (0 < len)%nat ->
  Forall (fun c => 1 <= length c <= len)%nat (chunks len l) /\
  (forall i c, chunks len l !! i = Some c ->
               (S i < length (chunks len l))%nat -> length c = len) /\
  (forall c, last (chunks len l) = Some c ->
             length c = if (length l mod len =? 0)%nat then len
                        else (length l mod len)%nat).
Proof.
  intros Hlen. remember (length l) as n eqn:Hn.
  revert l Hn. induction n as [n IH] using lt_wf_ind. intros l Hn.
  destruct l as [|b l]; [by repeat split|].
  rewrite chunks_cons by done.
  assert (length (skipn len (b :: l)) < n)%nat as Hlt
    by (rewrite length_skipn; subst n; simpl; lia).
  destruct (IH _ Hlt (skipn len (b :: l)) eq_refl) as (IH1 & IH2 & IH3).
  assert (1 <= n)%nat by (subst n; simpl; lia).
  pose proof (length_firstn len (b :: l)) as Hfl. rewrite <- Hn in Hfl.
  split; [|split].
  - constructor; [lia | done].
  - intros [|i] c Hc Hi.
    + injection Hc as <-. rewrite Hfl.
      cbn [length] in Hi.
      destruct (skipn len (b :: l)) as [|b' l'] eqn:Es; [simpl in Hi; lia|].
      assert (length (skipn len (b :: l)) = S (length l')) as Hs by by rewrite Es.
      rewrite length_skipn, <- Hn in Hs. lia.
    + cbn [length] in Hi. apply (IH2 i c Hc). lia.
  - intros c Hc.
    destruct (skipn len (b :: l)) as [|b' l'] eqn:Es.
    + injection Hc as <-. rewrite Hfl.
      assert (length (skipn len (b :: l)) = 0)%nat as Hs by by rewrite Es.
      rewrite length_skipn, <- Hn in Hs.
      destruct (Nat.eq_dec n len) as [->|Hne].
      * rewrite Nat.Div0.mod_same. simpl. lia.
      * rewrite (Nat.mod_small n len) by lia.
        destruct (Nat.eqb_spec n 0); lia.
    + assert (length (b' :: l') = n - len)%nat as Hs
        by by rewrite <- Es, length_skipn, <- Hn.
      assert (len < n)%nat as Hgt by (simpl in Hs; lia).
      rewrite Hs in IH3.
      rewrite chunks_cons in Hc, IH3 by done.
      rewrite last_cons_cons in Hc. rewrite (IH3 c Hc).
      assert (n mod len = (n - len) mod len)%nat as ->; [|done].
      replace n with ((n - len) + 1 * len)%nat at 1 by lia.
      apply Nat.Div0.mod_add.
Qed.

(** ** Decoding an in-memory stream *)

Lemma ReadSignature_loop_O_1 (r : bytes_Reader) sl sigs m :
  fst (ReadSignature_loop 0 r sl sigs m) = OutOfFuel /\
  fst (ReadSignature_loop 1 r sl sigs m) = OutOfFuel.
Proof. done. Qed.

Lemma ReadSignature_loop_bytes_end fuel sl sigs m :
  ReadSignature_loop (S (S fuel)) (NewReader []) sl sigs m =
    (Ok (sigs, m), NewReader []).
Proof. cbn [ReadSignature_loop]. by rewrite binary_Read_bytes_nil. Qed.

(** One round of the loop on a stream that starts with a whole record. *)
Lemma ReadSignature_loop_bytes_step fuel e rest sl sigs m :
  fst e < 2 ^ 32 -> length (snd e) = N.to_nat sl ->
  ReadSignature_loop (S (S fuel)) (NewReader (encode_record e ++ rest)) sl sigs m =
    match snd e ++ rest with
    | [] => (Err EOF, NewReader [])
    | _ :: _ =>
        ReadSignature_loop (S fuel) (NewReader rest) sl
          (sigs ++ [snd e]) (<[fst e := length sigs]> m)
    end.
Proof.
  intros Hw Hs. cbn [ReadSignature_loop]. unfold encode_record.
  rewrite <- app_assoc, binary_Read_PutUint32 by done.
  unfold Read at 1, bytes_Reader_Read. cbn [unread].
  destruct (snd e ++ rest) as [|b l] eqn:E; [done|].
  rewrite <- E, <- Hs, firstn_app, firstn_all, Nat.sub_diag.
  rewrite skipn_app, skipn_all, Nat.sub_diag. cbn [firstn skipn app].
  rewrite app_nil_r, Nat.eqb_refl. done.
Qed.

(** A stream of whole records, each with a strong sum of [sl >= 1] bytes,
    is decoded to the end, given fuel for one round per record and two
    more. *)
Lemma ReadSignature_loop_bytes entries fuel sl ret :
  Forall (wf_entry sl) entries ->
  1 <= sl \/ entries = [] ->
  (length entries + 2 <= fuel)%nat ->
  ReadSignature_loop fuel (NewReader (encode_records entries)) sl
      (strongSigs ret) (weak2block ret) =
    (Ok (strongSigs (add_entries ret entries),
         weak2block (add_entries ret entries)), NewReader []).
Proof.
  intros Hwf. revert fuel ret.
  induction Hwf as [|e es [Hw Hs] Hwf IH]; intros fuel ret Hsl Hfuel.
  - destruct fuel as [|[|fuel]]; [simpl in Hfuel; lia..|].
    apply ReadSignature_loop_bytes_end.
  - destruct Hsl as [Hsl|?]; [|done].
    destruct fuel as [|[|fuel]]; [simpl in Hfuel; lia..|].
    cbn [encode_records flat_map]. fold (encode_records es).
    rewrite ReadSignature_loop_bytes_step by done.
    destruct (snd e) as [|b s] eqn:Es; [simpl in Hs; lia|].
    cbn [app]. rewrite <- Es.
    apply (IH (S fuel) (add_entry ret e)); [by left | simpl in Hfuel; lia].
Qed.


Lemma add_entries_eta ret entries :
  MkSignatureType (sigType ret) (blockLen ret) (strongLen ret)
    (strongSigs (add_entries ret entries)) (weak2block (add_entries ret entries))
  = add_entries ret entries.
Proof.
  destruct (add_entries_header ret entries) as (H1 & H2 & H3).
  destruct (add_entries ret entries). simpl in *. congruence.
Qed.

Lemma ReadSignature_bytes magic bl sl entries fuel :
  magic < 2 ^ 32 -> bl < 2 ^ 32 -> sl < 2 ^ 32 ->
  Forall (wf_entry sl) entries ->
  1 <= sl \/ entries = [] ->
  (length entries + 2 <= fuel)%nat ->
  ReadSignature fuel
      (NewReader (encode_header magic bl sl ++ encode_records entries)) =
    (Ok (add_entries (MkSignatureType magic bl sl [] ∅) entries), NewReader []).
Proof.
  intros Hm Hb Hs Hwf Hsl Hfuel. unfold ReadSignature, encode_header.
  destruct fuel as [|fuel]; [lia|].
  rewrite <- !app_assoc.
  rewrite !binary_Read_PutUint32 by done.
  pose proof (ReadSignature_loop_bytes entries (S fuel) sl
                (MkSignatureType magic bl sl [] ∅) Hwf Hsl Hfuel) as E.
  cbn [strongSigs weak2block] in E. rewrite E.
  by rewrite <- add_entries_eta at 3.
Qed.


Lemma ReadSignature_loop_bytes_err fuel l sl sigs m e r' :
  ReadSignature_loop fuel (NewReader l) sl sigs m = (Err e, r') ->
  decode_error e.
Proof.
  revert l sigs m. induction fuel as [|fuel IH]; intros l sigs m; [done|].
  cbn [ReadSignature_loop].
  destruct (binary_Read fuel (NewReader l)) as [res [l1]] eqn:E.
  destruct res as [w|e1| |]; try done.
  - unfold Read, bytes_Reader_Read. cbn [unread].
    destruct l1 as [|b l1].
    + intros [= <- _]. by left.
    + destruct (negb _).
      * intros [= <- _]. right; right. eauto.
      * apply IH.
  - apply binary_Read_bytes_err in E.
    destruct E as [-> | ->]; [done|]. intros [= <- _]. right; by left.
Qed.

Lemma ReadSignature_bytes_err fuel l e r' :
  ReadSignature fuel (NewReader l) = (Err e, r') -> decode_error e.
Proof.
  unfold ReadSignature.
  destruct (binary_Read fuel (NewReader l)) as [res [l1]] eqn:E1.
  assert (forall e0, res = Err e0 -> decode_error e0) as He1.
  { intros e0 ->. apply binary_Read_bytes_err in E1.
    destruct E1 as [-> | ->]; [by left | right; by left]. }
  destruct res as [magic|e1| |]; try done; [|intros [= <- _]; by apply He1].
  clear He1 E1.
  destruct (binary_Read fuel (NewReader l1)) as [res [l2]] eqn:E1.
  assert (forall e0, res = Err e0 -> decode_error e0) as He1.
  { intros e0 ->. apply binary_Read_bytes_err in E1.
    destruct E1 as [-> | ->]; [by left | right; by left]. }
  destruct res as [bl|e1| |]; try done; [|intros [= <- _]; by apply He1].
  clear He1 E1.
  destruct (binary_Read fuel (NewReader l2)) as [res [l3]] eqn:E1.
  assert (forall e0, res = Err e0 -> decode_error e0) as He1.
  { intros e0 ->. apply binary_Read_bytes_err in E1.
    destruct E1 as [-> | ->]; [by left | right; by left]. }
  destruct res as [sl|e1| |]; try done; [|intros [= <- _]; by apply He1].
  clear He1 E1.
  destruct (ReadSignature_loop fuel (NewReader l3) sl [] ∅) as [res r3] eqn:E.
  destruct res as [[sigs m]|e1| |]; try done.
  intros [= <- _]. by apply ReadSignature_loop_bytes_err in E.
Qed.

(** ** Last write wins *)

Lemma last_occurrence (entries : list (N * list byte)) j w :
  fst <$> entries !! j = Some w ->
  exists k, (j <= k)%nat /\ fst <$> entries !! k = Some w /\
            forall i, (k < i)%nat -> fst <$> entries !! i <> Some w.
Proof.
  induction entries as [|e l IH] using rev_ind; [done|].
  intros Hj. destruct (N.eq_dec (fst e) w) as [He|He].
  - exists (length l). split; [|split].
    + assert (is_Some ((l ++ [e]) !! j)) as Hsome
        by (destruct ((l ++ [e]) !! j); [eauto | done]).
      apply lookup_lt_is_Some_1 in Hsome.
      rewrite length_app in Hsome. simpl in Hsome. lia.
    + rewrite lookup_app_r, Nat.sub_diag by lia. simpl. by rewrite He.
    + intros i Hi. rewrite lookup_ge_None_2; [done|].
      rewrite length_app. simpl. lia.
  - assert (j < length l)%nat as Hlt.
    { destruct (Nat.lt_trichotomy j (length l)) as [?|[->|Hgt]]; [done| |].
      - rewrite lookup_app_r, Nat.sub_diag in Hj by lia. simpl in Hj. congruence.
      - rewrite lookup_ge_None_2 in Hj; [done|]. rewrite length_app. simpl. lia. }
    rewrite lookup_app_l in Hj by done.
    destruct (IH Hj) as (k & Hjk & Hk & Hlast).
    assert (k < length l)%nat as Hkl.
    { apply lookup_lt_is_Some_1. destruct (l !! k); [eauto | done]. }
    exists k. split; [done|]. split; [by rewrite lookup_app_l|].
    intros i Hi. destruct (Nat.lt_trichotomy i (length l)) as [?|[->|Hgt]].
    + rewrite lookup_app_l by done. by apply Hlast.
    + rewrite lookup_app_r, Nat.sub_diag by lia. simpl. congruence.
    + rewrite lookup_ge_None_2; [done|]. rewrite length_app. simpl. lia.
Qed.

Lemma add_entries_weak2block ret (entries : list (N * list byte)) k w :
  fst <$> entries !! k = Some w ->
  (forall i, (k < i)%nat -> fst <$> entries !! i <> Some w) ->
  weak2block (add_entries ret entries) !! w = Some (length (strongSigs ret) + k)%nat.
Proof.
  induction entries as [|e l IH] using rev_ind; [done|].
  intros Hk Hlast. rewrite add_entries_snoc. cbn [add_entry add_block weak2block].
  rewrite add_entries_strongSigs, length_app, length_map.
  destruct (Nat.lt_trichotomy k (length l)) as [Hlt|[->|Hgt]].
  - rewrite lookup_app_l in Hk by done.
    assert (fst e <> w) as Hne.
    { intros He. apply (Hlast (length l) Hlt).
      rewrite lookup_app_r, Nat.sub_diag by lia. simpl. by rewrite He. }
    rewrite lookup_insert_ne by done. apply IH; [done|].
    intros i Hi. destruct (Nat.lt_ge_cases i (length l)) as [Hil|Hil].
    + specialize (Hlast i Hi). by rewrite lookup_app_l in Hlast.
    + by rewrite lookup_ge_None_2.
  - rewrite lookup_app_r, Nat.sub_diag in Hk by lia. simpl in Hk.
    injection Hk as ->. by rewrite lookup_insert_eq.
  - rewrite lookup_ge_None_2 in Hk; [done|]. rewrite length_app. simpl. lia.
Qed.

Lemma add_entries_untouched ret (entries : list (N * list byte)) w :
  (forall i, fst <$> entries !! i <> Some w) ->
  weak2block (add_entries ret entries) !! w = weak2block ret !! w.
Proof.
  induction entries as [|e l IH] using rev_ind; [done|].
  intros Hno. rewrite add_entries_snoc. cbn [add_entry add_block weak2block].
  assert (fst e <> w) as Hne.
  { intros He. apply (Hno (length l)).
    rewrite lookup_app_r, Nat.sub_diag by lia. simpl. by rewrite He. }
  rewrite lookup_insert_ne by done. apply IH.
  intros i. destruct (Nat.lt_ge_cases i (length l)) as [Hil|Hil].
  - specialize (Hno i). by rewrite lookup_app_l in Hno.
  - by rewrite lookup_ge_None_2.
Qed.

(** ** Building, then decoding *)

Lemma valid_config_u32 st sl : valid_config st sl -> sl < 2 ^ 32.
Proof.
  unfold valid_config, BLAKE2_SUM_LENGTH, MD4_SUM_LENGTH.
  intros [[_ Hsl] | [_ Hsl]]; (eapply N.le_lt_trans; [exact Hsl | done]).
Qed.

Lemma block_entries_wf st sl blocks :
  valid_config st sl ->
  Forall (wf_entry sl) (map (block_entry st sl) blocks).
Proof using blake2b_len md4_len weak_u32.
  intros Hv. induction blocks as [|d blocks IH]; constructor; [|done].
  split; [apply weak_u32 | by apply block_entry_length].
Qed.

Section RoundTrip.
Context {R : Type} `{Reader R}.

(** What a successful build into an empty buffer returns and leaves in
    the buffer. *)
Lemma Signature_buffer_Ok fuel (input input' : R) out B sl st sig :
  valid_config st sl ->
  Signature fuel input (NewBuffer []) B sl st = (Ok sig, input', out) ->
  exists blocks,
    read_blocks fuel input (N.to_nat B) = (blocks, Ok tt, input') /\
    sig = add_entries (MkSignatureType st B sl [] ∅)
            (map (block_entry st sl) blocks) /\
    Bytes out = encode_header st B sl
                  ++ encode_records (map (block_entry st sl) blocks).
Proof using blake2b_len md4_len.
  intros Hv. rewrite Signature_buffer by done.
  destruct (read_blocks fuel input (N.to_nat B)) as [[blocks res] input2].
  destruct res as [[]| | |]; try done.
  intros [= <- <- <-]. by exists blocks.
Qed.

Lemma Signature_ReadSignature fuel (input input' : R) out B sl st sig fuel' :
  valid_config st sl -> 1 <= sl -> st < 2 ^ 32 -> B < 2 ^ 32 ->
  Signature fuel input (NewBuffer []) B sl st = (Ok sig, input', out) ->
  (length (strongSigs sig) + 2 <= fuel')%nat ->
  ReadSignature fuel' (NewReader (Bytes out)) = (Ok sig, NewReader []).
Proof using blake2b_len md4_len weak_u32.
  intros Hv Hsl Hst HB Hbuild Hfuel.
  destruct (Signature_buffer_Ok _ _ _ _ _ _ _ _ Hv Hbuild)
    as (blocks & _ & -> & ->).
  pose proof (valid_config_u32 st sl Hv) as Hsl32.
  rewrite add_entries_strongSigs in Hfuel. cbn [strongSigs app] in Hfuel.
  rewrite !length_map in Hfuel.
  apply ReadSignature_bytes; try done.
  - by apply block_entries_wf.
  - by left.
  - by rewrite length_map.
Qed.

End RoundTrip.

(** Building from an in-memory input ends, within one round per input
    byte and one more. *)
Lemma Signature_bytes fuel basis B sl st :
  valid_config st sl -> 1 <= B -> (length basis < fuel)%nat ->
  Signature fuel (NewReader basis) (NewBuffer []) B sl st =
    (Ok (add_entries (MkSignatureType st B sl [] ∅)
           (map (block_entry st sl) (chunks (N.to_nat B) basis))),
     NewReader [],
     NewBuffer (encode_header st B sl ++
                encode_records (map (block_entry st sl) (chunks (N.to_nat B) basis)))).
Proof using blake2b_len md4_len.
  intros Hv HB Hfuel. rewrite Signature_buffer by done.
  rewrite read_blocks_bytes by lia. done.
Qed.

(** * The claims *)

(** ** Strong sums *)

(** C3 (as the code has it): under a recognised tag, [CalcStrongSum]
    returns the first [strongLen] bytes of the algorithm's digest, exactly
    [strongLen] of them, when [strongLen] is at most the native length (32
    for BLAKE2, 16 for MD4); asked for more it panics, and returns no error
    value: the slice expression is out of range.  The only error it
    returns is the one for an unrecognised tag. *)
Theorem CalcStrongSum_slices_or_panics data st sl :
  BLAKE2_SIG_MAGIC <> MD4_SIG_MAGIC ->
  (st = BLAKE2_SIG_MAGIC ->
     (sl <= BLAKE2_SUM_LENGTH ->
        CalcStrongSum data st sl = Ok (firstn (N.to_nat sl) (blake2b_Sum256 data)) /\
        length (firstn (N.to_nat sl) (blake2b_Sum256 data)) = N.to_nat sl) /\
     (BLAKE2_SUM_LENGTH < sl -> CalcStrongSum data st sl = Panicked)) /\
  (st = MD4_SIG_MAGIC ->
     (sl <= MD4_SUM_LENGTH ->
        CalcStrongSum data st sl = Ok (firstn (N.to_nat sl) (md4_Sum data)) /\
        length (firstn (N.to_nat sl) (md4_Sum data)) = N.to_nat sl) /\
     (MD4_SUM_LENGTH < sl -> CalcStrongSum data st sl = Panicked)) /\
  (st <> BLAKE2_SIG_MAGIC -> st <> MD4_SIG_MAGIC ->
     CalcStrongSum data st sl = Err (Errorf_Invalid_sigType st)).
Proof using blake2b_len md4_len.
  intros magic_distinct.
  unfold CalcStrongSum, slice_to, BLAKE2_SUM_LENGTH, MD4_SUM_LENGTH.
  split; [|split].
  - intros ->. rewrite N.eqb_refl, blake2b_len. split; intros Hsl.
    + destruct (Nat.leb_spec (N.to_nat sl) 32); [|lia].
      split; [done|]. rewrite length_firstn, blake2b_len. lia.
    + destruct (Nat.leb_spec (N.to_nat sl) 32); [lia|done].
  - intros ->.
    destruct (N.eqb_spec MD4_SIG_MAGIC BLAKE2_SIG_MAGIC) as [E|_];
      [by destruct magic_distinct|].
    rewrite N.eqb_refl, md4_len. split; intros Hsl.
    + destruct (Nat.leb_spec (N.to_nat sl) 16); [|lia].
      split; [done|]. rewrite length_firstn, md4_len. lia.
    + destruct (Nat.leb_spec (N.to_nat sl) 16); [lia|done].
  - intros H1 H2.
    destruct (N.eqb_spec st BLAKE2_SIG_MAGIC); [done|].
    by destruct (N.eqb_spec st MD4_SIG_MAGIC).
Qed.

(** ** Configuration is checked before any I/O *)

(** C6: with an unrecognised tag, or a strong length above the native
    length of the chosen digest, [Signature] returns an error and leaves
    both streams as they were: nothing was written (no header byte) and
    nothing read, whatever the reader, the writer and the fuel. *)
Theorem Signature_rejects_before_io {R W : Type} `{Reader R} `{Writer W}
    fuel (input : R) (output : W) B sl st :
  ~ valid_config st sl ->
  exists e,
    Signature fuel input output B sl st = (Err e, input, output) /\
    (e = Errorf_invalid_sigType st /\
       st <> BLAKE2_SIG_MAGIC /\ st <> MD4_SIG_MAGIC
     \/
     e = Errorf_invalid_strongLen sl st /\
       (st = BLAKE2_SIG_MAGIC /\ BLAKE2_SUM_LENGTH < sl \/
        st = MD4_SIG_MAGIC /\ MD4_SUM_LENGTH < sl)).
Proof.
  unfold valid_config, Signature. intros Hbad.
  destruct (N.eqb_spec st BLAKE2_SIG_MAGIC) as [E1|E1].
  - destruct (N.ltb_spec BLAKE2_SUM_LENGTH sl) as [Hlt|Hge].
    + eexists. split; [done|]. right. split; [done|]. by left.
    + destruct Hbad. by left.
  - destruct (N.eqb_spec st MD4_SIG_MAGIC) as [E2|E2].
    + destruct (N.ltb_spec MD4_SUM_LENGTH sl) as [Hlt|Hge].
      * eexists. split; [done|]. right. split; [done|]. by right.
      * destruct Hbad. by right.
    + eexists. split; [done|]. by left.
Qed.

(** ** Truncation *)

(** C9: in a build with a recognised tag and a valid strong length, the
    strong sum kept for each block and the one written after the block's
    weak sum are the first [strongLen] bytes of the full digest of the
    block's bytes: of [blake2b.Sum256] under the BLAKE2 tag, of MD4 under
    the MD4 tag. *)
Theorem strong_sums_are_truncated_digests {R : Type} `{Reader R}
    fuel (input input' : R) out B sl st sig :
  BLAKE2_SIG_MAGIC <> MD4_SIG_MAGIC ->
  valid_config st sl ->
  Signature fuel input (NewBuffer []) B sl st = (Ok sig, input', out) ->
  exists blocks,
    read_blocks fuel input (N.to_nat B) = (blocks, Ok tt, input') /\
    strongSigs sig = map (fun d => firstn (N.to_nat sl) (full_digest st d)) blocks /\
    Bytes out =
      encode_header st B sl ++
      flat_map (fun d => PutUint32 (WeakChecksum d) ++
                         firstn (N.to_nat sl) (full_digest st d)) blocks /\
    (forall d, st = BLAKE2_SIG_MAGIC -> full_digest st d = blake2b_Sum256 d) /\
    (forall d, st = MD4_SIG_MAGIC -> full_digest st d = md4_Sum d).
Proof using blake2b_len md4_len.
  intros magic_distinct Hv Hbuild.
  destruct (Signature_buffer_Ok _ _ _ _ _ _ _ _ Hv Hbuild)
    as (blocks & Hblocks & -> & ->).
  exists blocks. split; [done|]. split; [|split; [|split]].
  - rewrite add_entries_strongSigs. cbn [strongSigs app].
    rewrite map_map. done.
  - f_equal. unfold encode_records. rewrite flat_map_concat_map, map_map.
    by rewrite <- flat_map_concat_map.
  - intros d ->. unfold full_digest. by rewrite N.eqb_refl.
  - intros d ->. unfold full_digest.
    destruct (N.eqb_spec MD4_SIG_MAGIC BLAKE2_SIG_MAGIC) as [E|_]; [|done].
    by destruct magic_distinct.
Qed.

(** ** Collisions of weak sums *)


(** ** Round trip *)

(** X19: read back from memory.  For every basis byte sequence and every
    valid configuration with [blockLen >= 1] and [strongLen >= 1],
    building into a buffer succeeds, and decoding the buffer's bytes
    through a [bytes.Reader], which fills every buffer it is given, gives
    the very index the build returned; both for any fuel of more than one
    round per input byte. *)
Theorem decode_build_roundtrip basis B sl st fuel fuel' :
  valid_config st sl -> st < 2 ^ 32 -> 1 <= B -> B < 2 ^ 32 -> 1 <= sl ->
  (length basis < fuel)%nat -> (length basis + 2 <= fuel')%nat ->
  exists sig out,
    Signature fuel (NewReader basis) (NewBuffer []) B sl st =
      (Ok sig, NewReader [], NewBuffer out) /\
    ReadSignature fuel' (NewReader out) = (Ok sig, NewReader []).
Proof using blake2b_len md4_len weak_u32.
  intros Hv Hst HB1 HB Hsl Hfuel Hfuel'.
  pose proof (Signature_bytes fuel basis B sl st Hv HB1 Hfuel) as Hbuild.
  eexists _, _. split; [exact Hbuild|].
  apply (Signature_ReadSignature _ _ _ _ _ _ _ _ _ Hv Hsl Hst HB Hbuild).
  rewrite add_entries_strongSigs. cbn [strongSigs app].
  rewrite !length_map, chunks_length by lia.
  assert (1 <= N.to_nat B)%nat as Hb by lia.
  assert ((length basis + N.to_nat B - 1) / N.to_nat B <= length basis)%nat; [|lia].
  destruct (length basis) as [|n].
  - rewrite Nat.div_small; lia.
  - apply Nat.Div0.div_le_upper_bound. nia.
Qed.

(** ** End of stream and truncation in decoding *)

Lemma ReadSignature_loop_bytes_truncated entries w partial fuel sl sigs m :
  Forall (wf_entry sl) entries -> w < 2 ^ 32 ->
  (length partial < N.to_nat sl)%nat ->
  (length entries + 2 <= fuel)%nat ->
  ReadSignature_loop fuel
      (NewReader (encode_records entries ++ PutUint32 w ++ partial)) sl sigs m =
    (Err (match partial with
          | [] => EOF
          | _ :: _ => Errorf_short_strong_hash (length partial) sl
          end), NewReader []).
Proof.
  intros Hwf Hw Hp. revert fuel sigs m.
  induction Hwf as [|e es [Hew Hes] Hwf IH]; intros fuel sigs m Hfuel.
  - destruct fuel as [|[|fuel]]; [simpl in Hfuel; lia..|].
    cbn [encode_records flat_map app ReadSignature_loop].
    rewrite binary_Read_PutUint32 by done.
    unfold Read, bytes_Reader_Read. cbn [unread].
    destruct partial as [|b p]; [done|].
    rewrite firstn_all2, skipn_all2 by lia.
    destruct (Nat.eqb_spec (length (b :: p)) (N.to_nat sl)); [lia|done].
  - destruct fuel as [|[|fuel]]; [simpl in Hfuel; lia..|].
    cbn [encode_records flat_map]. fold (encode_records es).
    rewrite <- app_assoc.
    rewrite ReadSignature_loop_bytes_step by done.
    destruct (snd e) as [|b s] eqn:Es; [simpl in Hes; lia|].
    cbn [app]. apply IH. simpl in Hfuel. lia.
Qed.

(** X20: where decoding stops.  In the decoding loop, whatever the
    reader: [io.EOF] with no byte read where a record's weak sum would
    begin ends the loop successfully with the records read so far; and a
    [Read] that gives fewer than [strongLen] bytes of strong sum, the weak
    sum being read, ends decoding with an error.  Through a
    [bytes.Reader]: a header and whole records with [strongLen >= 1] (or
    no record at all) decode to exactly these records, and a stream that
    stops inside the strong sum of a record fails. *)
Theorem ReadSignature_end_of_stream :
  (forall (R : Type) (HR : Reader R) (r r' : R) fuel sl sigs m,
      binary_Read fuel r = (Err EOF, r') ->
      ReadSignature_loop (S fuel) r sl sigs m = (Ok (sigs, m), r')) /\
  (forall (R : Type) (HR : Reader R) (r r1 r2 : R) fuel sl sigs m w d err,
      binary_Read fuel r = (Ok w, r1) ->
      Read r1 (N.to_nat sl) = (d, err, r2) ->
      (length d < N.to_nat sl)%nat ->
      exists e, ReadSignature_loop (S fuel) r sl sigs m = (Err e, r2) /\
                (err = Some e \/
                 err = None /\ e = Errorf_short_strong_hash (length d) sl)) /\
  (forall magic bl sl entries fuel,
      magic < 2 ^ 32 -> bl < 2 ^ 32 -> sl < 2 ^ 32 ->
      Forall (wf_entry sl) entries ->
      1 <= sl \/ entries = [] ->
      (length entries + 2 <= fuel)%nat ->
      ReadSignature fuel
          (NewReader (encode_header magic bl sl ++ encode_records entries)) =
        (Ok (add_entries (MkSignatureType magic bl sl [] ∅) entries),
         NewReader [])) /\
  (forall magic bl sl entries w partial fuel,
      magic < 2 ^ 32 -> bl < 2 ^ 32 -> sl < 2 ^ 32 ->
      Forall (wf_entry sl) entries -> w < 2 ^ 32 ->
      (length partial < N.to_nat sl)%nat ->
      (length entries + 2 <= fuel)%nat ->
      exists e,
        ReadSignature fuel
            (NewReader (encode_header magic bl sl ++ encode_records entries
                          ++ PutUint32 w ++ partial)) =
          (Err e, NewReader []) /\
        (e = EOF /\ partial = [] \/
         e = Errorf_short_strong_hash (length partial) sl /\ partial <> [])).
Proof.
  split; [|split; [|split]].
  - intros R HR r r' fuel sl sigs m Hrd.
    cbn [ReadSignature_loop]. by rewrite Hrd.
  - intros R HR r r1 r2 fuel sl sigs m w d err Hrd Hstrong Hshort.
    cbn [ReadSignature_loop]. rewrite Hrd, Hstrong.
    destruct err as [e|].
    + exists e. split; [done | by left].
    + destruct (Nat.eqb_spec (length d) (N.to_nat sl)); [lia|].
      eexists. split; [done | by right].
  - intros. by apply ReadSignature_bytes.
  - intros magic bl sl entries w partial fuel Hm Hb Hs Hwf Hw Hp Hfuel.
    unfold ReadSignature, encode_header.
    destruct fuel as [|fuel]; [lia|].
    rewrite <- !app_assoc. rewrite !binary_Read_PutUint32 by done.
    rewrite ReadSignature_loop_bytes_truncated by done.
    eexists. split; [done|]. destruct partial; [by left | by right].
Qed.

(** ** Decoding checks nothing in the header *)

(** X21: no check of the header.  Whatever the three 32-bit header
    values are (a tag [Signature] rejects, a block length of zero), a
    stream of that header and whole records with [strongLen >= 1], or of
    the header alone, read through a [bytes.Reader], decodes to an index
    holding these very values; and no decoding through a [bytes.Reader]
    ends with one of the configuration errors: its errors are [io.EOF],
    [io.ErrUnexpectedEOF] and the short-strong-sum error. *)
Theorem ReadSignature_takes_header_verbatim magic bl sl entries fuel :
  magic < 2 ^ 32 -> bl < 2 ^ 32 -> sl < 2 ^ 32 ->
  Forall (wf_entry sl) entries ->
  1 <= sl \/ entries = [] ->
  (length entries + 2 <= fuel)%nat ->
  (exists sig,
      ReadSignature fuel
          (NewReader (encode_header magic bl sl ++ encode_records entries)) =
        (Ok sig, NewReader []) /\
      sigType sig = magic /\ blockLen sig = bl /\ strongLen sig = sl /\
      strongSigs sig = map snd entries) /\
  (forall stream fuel0 e r',
      ReadSignature fuel0 (NewReader stream) = (Err e, r') ->
      decode_error e /\
      (forall a, e <> Errorf_invalid_sigType a) /\
      (forall a, e <> Errorf_Invalid_sigType a) /\
      (forall a b, e <> Errorf_invalid_strongLen a b)).
Proof.
  intros Hm Hb Hs Hwf Hsl Hfuel. split.
  - eexists. split; [by apply ReadSignature_bytes|].
    destruct (add_entries_header (MkSignatureType magic bl sl [] ∅) entries)
      as (-> & -> & ->).
    by rewrite add_entries_strongSigs.
  - intros stream fuel0 e r' Hdec.
    apply ReadSignature_bytes_err in Hdec. split; [done|].
    destruct Hdec as [-> | [-> | (n & s & ->)]]; by repeat split.
Qed.

(** ** Blocks of the build *)

(** On an input held in memory ([bytes.Reader]) the blocks are the pieces
    of [blockLen] bytes: their number is the length divided by [blockLen],
    rounded up, none is empty, all but the last are full, the last has the
    remainder (or is full), and together they are the input. *)
Lemma Signature_bytes_partition fuel basis B sl st :
  valid_config st sl -> 1 <= B -> (length basis < fuel)%nat ->
  exists sig out blocks,
    Signature fuel (NewReader basis) (NewBuffer []) B sl st =
      (Ok sig, NewReader [], out) /\
    strongSigs sig = map (fun d => snd (block_entry st sl d)) blocks /\
    Bytes out = encode_header st B sl ++
                encode_records (map (block_entry st sl) blocks) /\
    concat blocks = basis /\
    length blocks = ((length basis + N.to_nat B - 1) / N.to_nat B)%nat /\
    Forall (fun c => 1 <= length c <= N.to_nat B)%nat blocks /\
    (forall i c, blocks !! i = Some c -> (S i < length blocks)%nat ->
                 length c = N.to_nat B) /\
    (forall c, last blocks = Some c ->
               length c = if (length basis mod N.to_nat B =? 0)%nat
                          then N.to_nat B
                          else (length basis mod N.to_nat B)%nat).
Proof using blake2b_len md4_len.
  intros Hv HB Hfuel. assert (0 < N.to_nat B)%nat as Hb by lia.
  eexists _, _, (chunks (N.to_nat B) basis).
  split; [by apply Signature_bytes|].
  split; [rewrite add_entries_strongSigs; cbn [strongSigs app];
          by rewrite map_map|].
  split; [done|].
  split; [by apply chunks_concat|].
  split; [by apply chunks_length|].
  by apply chunks_sizes.
Qed.

Lemma valid_config_MD4_16 : valid_config MD4_SIG_MAGIC 16.
Proof. right. split; [done|]. unfold MD4_SUM_LENGTH. lia. Qed.

(** C7, on a reader with short reads: the eight bytes ["abcdwxyz"], handed
    out one byte per [Read] as [iotest.OneByteReader] does, built with
    [blockLen = 4], give eight blocks of one byte, where dividing the
    length by the block length gives two. *)
Theorem Signature_short_reads_eight_blocks :
  exists sig out,
    Signature 9 (MkOneByteReader (NewReader abcdwxyz)) (NewBuffer []) 4 16
        MD4_SIG_MAGIC =
      (Ok sig, MkOneByteReader (NewReader []), out) /\
    strongSigs sig =
      map (fun d => firstn 16 (full_digest MD4_SIG_MAGIC d))
          [[x61]; [x62]; [x63]; [x64]; [x77]; [x78]; [x79]; [x7a]] /\
    length (strongSigs sig) = 8%nat /\
    ((length abcdwxyz + 4 - 1) / 4 = 2)%nat.
Proof using blake2b_len md4_len.
  eexists _, _. split; [|split; [|split]].
  - rewrite Signature_buffer by apply valid_config_MD4_16. cbn. reflexivity.
  - rewrite add_entries_strongSigs. reflexivity.
  - rewrite add_entries_strongSigs. reflexivity.
  - reflexivity.
Qed.

(** C8, on a reader that returns its last bytes together with [io.EOF]:
    of the five bytes ["abcde"] built with [blockLen = 4] only the block
    ["abcd"] is recorded and written; the final short block ["e"] is read
    and dropped. *)
Theorem Signature_drops_block_read_with_EOF :
  exists sig out,
    Signature 3 (MkDataEOFReader abcde) (NewBuffer []) 4 16 MD4_SIG_MAGIC =
      (Ok sig, MkDataEOFReader [], out) /\
    Read (MkDataEOFReader [x65]) 4 = ([x65], Some EOF, MkDataEOFReader []) /\
    strongSigs sig = [firstn 16 (full_digest MD4_SIG_MAGIC [x61; x62; x63; x64])] /\
    Bytes out =
      encode_header MD4_SIG_MAGIC 4 16 ++
      PutUint32 (WeakChecksum [x61; x62; x63; x64]) ++
      firstn 16 (full_digest MD4_SIG_MAGIC [x61; x62; x63; x64]).
Proof using blake2b_len md4_len.
  eexists _, _. split; [|split; [|split]].
  - rewrite Signature_buffer by apply valid_config_MD4_16. cbn. reflexivity.
  - reflexivity.
  - rewrite add_entries_strongSigs. reflexivity.
  - cbn. by rewrite app_nil_r.
Qed.

(** ** Write errors *)

(** The errors the build does hand on, whatever the streams: one of
    [input.Read] other than [io.EOF], and one of the write of a weak sum
    or of a header field; in each case at once, and with no index. *)
Section CheckedErrors.
Context {R W : Type} `{Reader R} `{Writer W}.

Lemma Signature_loop_read_error fuel (input input' : R) (output : W)
    B sl st ret data e :
  Read input (N.to_nat B) = (data, Some e, input') -> e <> EOF ->
  Signature_loop (S fuel) input output B sl st ret = (Err e, input', output).
Proof.
  intros Hrd He. cbn [Signature_loop]. rewrite Hrd. by destruct e.
Qed.

Lemma Signature_loop_weak_write_error fuel (input input' : R)
    (output output' : W) B sl st ret data e :
  Read input (N.to_nat B) = (data, None, input') ->
  binary_Write output (WeakChecksum data) = (Some e, output') ->
  Signature_loop (S fuel) input output B sl st ret = (Err e, input', output').
Proof.
  intros Hrd Hwr. cbn [Signature_loop]. by rewrite Hrd, Hwr.
Qed.

Lemma Signature_header_write_error fuel (input : R) (output output' : W)
    B sl st e :
  valid_config st sl ->
  binary_Write output st = (Some e, output') ->
  Signature fuel input output B sl st = (Err e, input, output').
Proof.
  unfold valid_config, Signature, BLAKE2_SUM_LENGTH, MD4_SUM_LENGTH.
  intros Hv Hwr.
  destruct (N.eqb_spec st BLAKE2_SIG_MAGIC) as [E1|E1].
  - destruct (N.ltb_spec 32 sl) as [Hlt|Hge]; [|by rewrite Hwr].
    destruct Hv as [[_ ?] | [_ ?]]; lia.
  - destruct Hv as [[? _] | [-> Hsl]]; [done|].
    rewrite N.eqb_refl.
    destruct (N.ltb_spec 16 sl) as [Hlt|Hge]; [lia|by rewrite Hwr].
Qed.
End CheckedErrors.

(** C2, on a sink that accepts four writes (the three header fields and
    one weak sum) and fails afterwards: the write of the block's strong sum
    fails, its error is dropped, and the build returns a whole index and no
    error, with the strong sum missing from the output. *)
Theorem Signature_ignores_strong_write_error :
  BLAKE2_SIG_MAGIC <> MD4_SIG_MAGIC ->
  Write (MkLimitedWriter 0
           (encode_header MD4_SIG_MAGIC 4 16 ++
            PutUint32 (WeakChecksum [x61; x62; x63; x64])))
        (firstn 16 (md4_Sum [x61; x62; x63; x64])) =
    (0%nat, Some (ErrStream 28),
     MkLimitedWriter 0
       (encode_header MD4_SIG_MAGIC 4 16 ++
        PutUint32 (WeakChecksum [x61; x62; x63; x64]))) /\
  Signature 2 (NewReader [x61; x62; x63; x64]) (MkLimitedWriter 4 []) 4 16
      MD4_SIG_MAGIC =
    (Ok (MkSignatureType MD4_SIG_MAGIC 4 16
           [firstn 16 (md4_Sum [x61; x62; x63; x64])]
           (<[WeakChecksum [x61; x62; x63; x64] := 0%nat]> ∅)),
     NewReader [],
     MkLimitedWriter 0
       (encode_header MD4_SIG_MAGIC 4 16 ++
        PutUint32 (WeakChecksum [x61; x62; x63; x64]))).
Proof using blake2b_len md4_len.
  intros magic_distinct. split; [done|].
  unfold Signature.
  destruct (N.eqb_spec MD4_SIG_MAGIC BLAKE2_SIG_MAGIC) as [E|_];
    [by destruct magic_distinct|].
  rewrite N.eqb_refl. cbn -[CalcStrongSum].
  rewrite (CalcStrongSum_valid MD4_SIG_MAGIC 16 _ valid_config_MD4_16).
  unfold full_digest.
  destruct (N.eqb_spec MD4_SIG_MAGIC BLAKE2_SIG_MAGIC) as [E|_];
    [by destruct magic_distinct|].
  reflexivity.
Qed.

(** ** A strong length of zero *)

(** With [strongLen = 0] the read of the last record's (empty) strong sum
    finds a [bytes.Reader] exhausted and gets [io.EOF]: a stream with at
    least one record does not decode. *)
Lemma ReadSignature_loop_bytes_strongLen_0 entries fuel sigs m :
  Forall (wf_entry 0) entries -> entries <> [] ->
  (length entries + 1 <= fuel)%nat ->
  ReadSignature_loop fuel (NewReader (encode_records entries)) 0 sigs m =
    (Err EOF, NewReader []).
Proof.
  intros Hwf. revert fuel sigs m.
  induction Hwf as [|e es [Hw Hs] Hwf IH]; intros fuel sigs m Hne Hfuel; [done|].
  destruct fuel as [|[|fuel]]; [simpl in Hfuel; lia..|].
  cbn [encode_records flat_map]. fold (encode_records es).
  rewrite ReadSignature_loop_bytes_step by done.
  destruct (snd e) as [|b s]; [|done]. cbn [app].
  destruct es as [|e' es]; [done|].
  cbn [encode_records flat_map encode_record PutUint32 app].
  fold (encode_records es).
  change (byte_of_N (N.shiftr (fst e') 24) :: byte_of_N (N.shiftr (fst e') 16)
            :: byte_of_N (N.shiftr (fst e') 8) :: byte_of_N (fst e')
            :: snd e' ++ encode_records es)
    with (encode_records (e' :: es)).
  apply IH; [done | simpl in *; lia].
Qed.

(** * Further properties of the build *)

Lemma entries_key_dec (entries : list (N * list byte)) w :
  (exists j, fst <$> entries !! j = Some w) \/
  (forall j, fst <$> entries !! j <> Some w).
Proof.
  induction entries as [|e l IH]; [by right|].
  destruct (N.eq_dec (fst e) w) as [He|He].
  - left. exists 0%nat. simpl. by rewrite He.
  - destruct IH as [[j Hj] | Hno].
    + left. by exists (S j).
    + right. intros [|j]; [simpl; congruence | apply Hno].
Qed.

(** Every position in the weak index is a position of [strongSigs]: the
    two assignments of lines 94-95 keep it so. *)
Lemma add_entries_in_range ret (entries : list (N * list byte)) w k :
  (forall w' k', weak2block ret !! w' = Some k' ->
                 (k' < length (strongSigs ret))%nat) ->
  weak2block (add_entries ret entries) !! w = Some k ->
  (k < length (strongSigs (add_entries ret entries)))%nat.
Proof.
  intros Hret. revert w k.
  induction entries as [|e l IH] using rev_ind; intros w k; [apply Hret|].
  rewrite add_entries_snoc. cbn [add_entry add_block weak2block strongSigs].
  rewrite length_app. cbn [length].
  destruct (N.eq_dec (fst e) w) as [->|Hne].
  - rewrite lookup_insert_eq. intros [= <-]. lia.
  - rewrite lookup_insert_ne by done. intros Hk. specialize (IH w k Hk). lia.
Qed.

Section AnyStreams.
Context {R W : Type} `{Reader R} `{Writer W}.

(** The loop on any pair of streams: when it returns an index, the input
    ended with [io.EOF] after the blocks recorded, and the index holds
    these blocks whatever the writes of the strong sums returned. *)
Lemma Signature_loop_Ok fuel (input input' : R) (output output' : W)
    B sl st ret sig :
  valid_config st sl ->
  Signature_loop fuel input output B sl st ret = (Ok sig, input', output') ->
  exists blocks,
    read_blocks fuel input (N.to_nat B) = (blocks, Ok tt, input') /\
    sig = add_entries ret (map (block_entry st sl) blocks).
Proof using blake2b_len md4_len.
  intros Hv. revert input output ret.
  induction fuel as [|fuel IH]; intros input output ret; [done|].
  cbn [Signature_loop read_blocks].
  destruct (Read input (N.to_nat B)) as [[data err] input1].
  destruct err as [e|].
  - destruct e; try done. intros [= <- <- <-]. by exists [].
  - destruct (binary_Write output (WeakChecksum data)) as [[e|] output1]; [done|].
    rewrite (CalcStrongSum_valid st sl data Hv).
    destruct (Write output1 (firstn (N.to_nat sl) (full_digest st data)))
      as [[n werr] output2].
    intros Hloop. destruct (IH _ _ _ Hloop) as (blocks & Hrd & ->).
    rewrite Hrd. by exists (data :: blocks).
Qed.

Lemma Signature_loop_no_panic fuel (input : R) (output : W) B sl st ret :
  valid_config st sl ->
  fst (fst (Signature_loop fuel input output B sl st ret)) <> Panicked.
Proof using blake2b_len md4_len.
  intros Hv. revert input output ret.
  induction fuel as [|fuel IH]; intros input output ret; [done|].
  cbn [Signature_loop].
  destruct (Read input (N.to_nat B)) as [[data err] input1].
  destruct err as [e|]; [by destruct e|].
  destruct (binary_Write output (WeakChecksum data)) as [[e|] output1]; [done|].
  rewrite (CalcStrongSum_valid st sl data Hv).
  destruct (Write output1 (firstn (N.to_nat sl) (full_digest st data)))
    as [[n werr] output2].
  apply IH.
Qed.

(** X1: [Signature] never panics, whatever the configuration, the streams
    and the fuel: the check of lines 42-53 keeps every slice expression of
    [CalcStrongSum] within the digest. *)
Theorem Signature_never_panics fuel (input : R) (output : W) B sl st :
  fst (fst (Signature fuel input output B sl st)) <> Panicked.
Proof using blake2b_len md4_len.
  unfold Signature.
  assert (forall m, (if st =? BLAKE2_SIG_MAGIC then Some BLAKE2_SUM_LENGTH
                     else if st =? MD4_SIG_MAGIC then Some MD4_SUM_LENGTH
                     else None) = Some m ->
                    (m <? sl) = false -> valid_config st sl) as Hvalid.
  { intros m Hm Hle. apply N.ltb_ge in Hle. unfold valid_config.
    destruct (N.eqb_spec st BLAKE2_SIG_MAGIC) as [E1|E1].
    - injection Hm as <-. by left.
    - destruct (N.eqb_spec st MD4_SIG_MAGIC) as [E2|E2]; [|done].
      injection Hm as <-. by right. }
  destruct (if st =? BLAKE2_SIG_MAGIC then Some BLAKE2_SUM_LENGTH
            else if st =? MD4_SIG_MAGIC then Some MD4_SUM_LENGTH
            else None) as [m|]; [|done].
  destruct (m <? sl) eqn:Hle; [done|].
  specialize (Hvalid m eq_refl Hle).
  destruct (binary_Write output st) as [[e|] output1]; [done|].
  destruct (binary_Write output1 B) as [[e|] output2]; [done|].
  destruct (binary_Write output2 sl) as [[e|] output3]; [done|].
  by apply Signature_loop_no_panic.
Qed.

Lemma Signature_Ok_blocks fuel (input input' : R) (output output' : W)
    B sl st sig :
  valid_config st sl ->
  Signature fuel input output B sl st = (Ok sig, input', output') ->
  exists blocks,
    read_blocks fuel input (N.to_nat B) = (blocks, Ok tt, input') /\
    sig = add_entries (MkSignatureType st B sl [] ∅)
            (map (block_entry st sl) blocks).
Proof using blake2b_len md4_len.
  intros Hv. unfold Signature.
  destruct (if st =? BLAKE2_SIG_MAGIC then Some BLAKE2_SUM_LENGTH
            else if st =? MD4_SIG_MAGIC then Some MD4_SUM_LENGTH
            else None) as [m|]; [|done].
  destruct (m <? sl); [done|].
  destruct (binary_Write output st) as [[e|] output1]; [done|].
  destruct (binary_Write output1 B) as [[e|] output2]; [done|].
  destruct (binary_Write output2 sl) as [[e|] output3]; [done|].
  by apply Signature_loop_Ok.
Qed.

(** X2: the index of a successful build is that of the blocks read,
    whatever the writer did: the same index a build of the same input into
    a buffer returns.  (The writes of the strong sums may have failed.) *)
Theorem Signature_index_whatever_the_writer fuel (input input' : R)
    (output output' : W) B sl st sig :
  valid_config st sl ->
  Signature fuel input output B sl st = (Ok sig, input', output') ->
  exists blocks,
    read_blocks fuel input (N.to_nat B) = (blocks, Ok tt, input') /\
    sig = add_entries (MkSignatureType st B sl [] ∅)
            (map (block_entry st sl) blocks) /\
    fst (Signature fuel input (NewBuffer []) B sl st) = (Ok sig, input').
Proof using blake2b_len md4_len.
  intros Hv Hbuild.
  destruct (Signature_Ok_blocks _ _ _ _ _ _ _ _ _ Hv Hbuild)
    as (blocks & Hrd & ->).
  exists blocks. split; [done|]. split; [done|].
  rewrite Signature_buffer by done. by rewrite Hrd.
Qed.

(** X3: what the weak index of a successful build holds, for every weak
    sum [w]: the position of the last block read whose weak sum is [w],
    and nothing when no block has that weak sum. *)
Theorem weak2block_exact fuel (input input' : R) (output output' : W)
    B sl st sig blocks w :
  valid_config st sl ->
  Signature fuel input output B sl st = (Ok sig, input', output') ->
  blocks = fst (fst (read_blocks fuel input (N.to_nat B))) ->
  (forall k, weak2block sig !! w = Some k <->
             WeakChecksum <$> blocks !! k = Some w /\
             forall n, (k < n)%nat -> WeakChecksum <$> blocks !! n <> Some w) /\
  (weak2block sig !! w = None <->
   forall n, WeakChecksum <$> blocks !! n <> Some w).
Proof using blake2b_len md4_len.
  intros Hv Hbuild Hblocks.
  destruct (Signature_Ok_blocks _ _ _ _ _ _ _ _ _ Hv Hbuild)
    as (blocks' & Hrd & ->).
  rewrite Hrd in Hblocks. cbn [fst] in Hblocks. subst blocks'.
  set (entries := map (block_entry st sl) blocks).
  assert (forall n, fst <$> entries !! n = WeakChecksum <$> blocks !! n) as Hfst.
  { intros n. unfold entries. change (map ?f ?l) with (f <$> l).
    rewrite list_lookup_fmap. by destruct (blocks !! n). }
  set (ret0 := MkSignatureType st B sl [] ∅).
  assert (forall k, fst <$> entries !! k = Some w ->
            (forall n, (k < n)%nat -> fst <$> entries !! n <> Some w) ->
            weak2block (add_entries ret0 entries) !! w = Some k) as Hlast.
  { intros k Hk Hno. by rewrite (add_entries_weak2block ret0 entries k w Hk Hno). }
  assert ((forall n, fst <$> entries !! n <> Some w) ->
          weak2block (add_entries ret0 entries) !! w = None) as Hnone.
  { intros Hno. by rewrite (add_entries_untouched ret0 entries w Hno). }
  destruct (entries_key_dec entries w) as [[j Hj] | Hno].
  - destruct (last_occurrence entries j w Hj) as (k0 & _ & Hk0 & Hlast0).
    pose proof (Hlast k0 Hk0 Hlast0) as Hlk. split.
    + intros k. rewrite Hlk. split.
      * intros [= <-]. split; [by rewrite <- Hfst|].
        intros n Hn. rewrite <- Hfst. by apply Hlast0.
      * intros [Hk Hkl]. f_equal.
        destruct (Nat.lt_trichotomy k0 k) as [Hlt|[->|Hgt]]; [|done|].
        -- destruct (Hlast0 k Hlt). by rewrite Hfst.
        -- destruct (Hkl k0 Hgt). by rewrite <- Hfst.
    + rewrite Hlk. split; [done|]. intros Hall.
      destruct (Hall j). by rewrite <- Hfst.
  - rewrite (Hnone Hno). split.
    + intros k. split; [done|]. intros [Hk _].
      destruct (Hno k). by rewrite Hfst.
    + split; [|done]. intros _ n. rewrite <- Hfst. apply Hno.
Qed.

(** X4: the index of a successful build is well formed, whatever the
    streams: it carries the three parameters, every strong sum in it has
    exactly [strongLen] bytes, there is one per block read, and every
    position the weak index gives is one of [strongSigs]. *)
Theorem Signature_index_well_formed fuel (input input' : R)
    (output output' : W) B sl st sig :
  valid_config st sl ->
  Signature fuel input output B sl st = (Ok sig, input', output') ->
  sigType sig = st /\ blockLen sig = B /\ strongLen sig = sl /\
  length (strongSigs sig) =
    length (fst (fst (read_blocks fuel input (N.to_nat B)))) /\
  Forall (fun s => length s = N.to_nat sl) (strongSigs sig) /\
  (forall w k, weak2block sig !! w = Some k ->
               (k < length (strongSigs sig))%nat).
Proof using blake2b_len md4_len.
  intros Hv Hbuild.
  destruct (Signature_Ok_blocks _ _ _ _ _ _ _ _ _ Hv Hbuild)
    as (blocks & Hrd & ->).
  rewrite Hrd. cbn [fst].
  set (ret0 := MkSignatureType st B sl [] ∅).
  destruct (add_entries_header ret0 (map (block_entry st sl) blocks))
    as (-> & -> & ->).
  rewrite add_entries_strongSigs. cbn [ret0 strongSigs app sigType blockLen strongLen].
  repeat split.
  - by rewrite !length_map.
  - rewrite map_map. clear Hrd Hbuild.
    induction blocks as [|d blocks IH]; constructor; [|done].
    by apply block_entry_length.
  - intros w k Hk. apply add_entries_in_range in Hk.
    + by rewrite add_entries_strongSigs in Hk.
    + intros w' k'. cbn. by rewrite lookup_empty.
Qed.
End AnyStreams.

(** ** Edge cases of the build *)

(** X5: an empty input, under any valid configuration and any block
    length (zero too, where the [Read] into an empty buffer still reports
    [io.EOF]): the build writes the twelve bytes of the header and returns
    an index without blocks, and these twelve bytes decode to that index,
    also when [strongLen] is zero. *)
Theorem Signature_empty_input fuel fuel' B sl st :
  valid_config st sl -> st < 2 ^ 32 -> B < 2 ^ 32 ->
  (1 <= fuel)%nat -> (2 <= fuel')%nat ->
  Signature fuel (NewReader []) (NewBuffer []) B sl st =
    (Ok (MkSignatureType st B sl [] ∅), NewReader [],
     NewBuffer (encode_header st B sl)) /\
  length (encode_header st B sl) = 12%nat /\
  ReadSignature fuel' (NewReader (encode_header st B sl)) =
    (Ok (MkSignatureType st B sl [] ∅), NewReader []).
Proof using blake2b_len md4_len.
  intros Hv Hst HB Hfuel Hfuel'. split; [|split; [done|]].
  - rewrite Signature_buffer by done.
    destruct fuel as [|fuel]; [lia|]. cbn. done.
  - pose proof (ReadSignature_bytes st B sl [] fuel' Hst HB
                  (valid_config_u32 st sl Hv) (Forall_nil_2 _)
                  (or_intror eq_refl) Hfuel') as Hdec.
    cbn [encode_records flat_map] in Hdec. by rewrite app_nil_r in Hdec.
Qed.

Lemma read_blocks_bytes_blockLen_0 fuel b (l : list byte) :
  read_blocks fuel (NewReader (b :: l)) 0 =
    (repeat [] fuel, OutOfFuel, NewReader (b :: l)).
Proof.
  induction fuel as [|fuel IH]; [done|].
  cbn [read_blocks Read bytes_Reader_Read unread firstn skipn]. by rewrite IH.
Qed.

(** X6: with [blockLen = 0] and an in-memory input that is not empty the
    loop never ends: whatever the fuel it is used up, no byte of the input
    is consumed, and every round has written the record of an empty
    block. *)
Theorem Signature_blockLen_0_never_ends fuel b l sl st :
  valid_config st sl ->
  Signature fuel (NewReader (b :: l)) (NewBuffer []) 0 sl st =
    (OutOfFuel, NewReader (b :: l),
     NewBuffer (encode_header st 0 sl ++
                encode_records (repeat (block_entry st sl []) fuel))) /\
  length (encode_records (repeat (block_entry st sl []) fuel)) =
    (fuel * (4 + N.to_nat sl))%nat.
Proof using blake2b_len md4_len.
  intros Hv. split.
  - rewrite Signature_buffer by done. cbn [N.to_nat].
    rewrite read_blocks_bytes_blockLen_0.
    assert (map (block_entry st sl) (repeat [] fuel)
            = repeat (block_entry st sl []) fuel) as ->; [|done].
    induction fuel as [|fuel IH]; [done|]. cbn [repeat map]. by rewrite IH.
  - induction fuel as [|fuel IH]; [done|].
    cbn [repeat encode_records flat_map]. fold (encode_records (repeat (block_entry st sl []) fuel)).
    rewrite length_app, IH. unfold encode_record.
    rewrite length_app, (block_entry_length st sl [] Hv). cbn. lia.
Qed.

Lemma encode_records_length sl entries :
  Forall (wf_entry sl) entries ->
  length (encode_records entries) = (length entries * (4 + N.to_nat sl))%nat.
Proof.
  induction 1 as [|e es [_ Hs] _ IH]; [done|].
  cbn [encode_records flat_map]. fold (encode_records es).
  rewrite length_app, IH. unfold encode_record.
  rewrite length_app, Hs. cbn. lia.
Qed.

(** X7: the size of a signature.  Built from an in-memory input of [L]
    bytes with [blockLen = B >= 1], the output has 12 bytes of header and
    [4 + strongLen] bytes for each of the [ceil(L / B)] blocks. *)
Theorem Signature_output_length fuel basis B sl st out :
  valid_config st sl -> 1 <= B -> (length basis < fuel)%nat ->
  snd (Signature fuel (NewReader basis) (NewBuffer []) B sl st) = out ->
  length (Bytes out) =
    (12 + (length basis + N.to_nat B - 1) / N.to_nat B * (4 + N.to_nat sl))%nat.
Proof using blake2b_len md4_len weak_u32.
  intros Hv HB Hfuel <-. rewrite Signature_bytes by done. cbn [snd Bytes].
  rewrite length_app, (encode_records_length sl) by by apply block_entries_wf.
  rewrite length_map, chunks_length by lia. done.
Qed.

Lemma read_blocks_FailingReader fuel len (l : list byte) e :
  e <> EOF -> (0 < len)%nat -> (length l < fuel)%nat ->
  read_blocks fuel (MkFailingReader l e) len =
    (chunks len l, Err e, MkFailingReader [] e).
Proof.
  intros He Hlen. revert l. induction fuel as [|fuel IH]; intros l Hfuel; [lia|].
  cbn [read_blocks]. unfold Read, FailingReader_Read. cbn [available failure].
  destruct l as [|b l]; [by destruct e|].
  rewrite IH.
  - by rewrite chunks_cons.
  - rewrite length_skipn. simpl in *. lia.
Qed.

(** X8: an error of the input ends the build with that error and no
    index, and leaves in the output what was written before it.  From a
    reader that hands out its bytes and then fails with [e], the build
    returns [e] after writing the header and the records of all blocks. *)
Theorem Signature_input_error fuel basis e B sl st :
  valid_config st sl -> 1 <= B -> e <> EOF -> (length basis < fuel)%nat ->
  Signature fuel (MkFailingReader basis e) (NewBuffer []) B sl st =
    (Err e, MkFailingReader [] e,
     NewBuffer (encode_header st B sl ++
                encode_records
                  (map (block_entry st sl) (chunks (N.to_nat B) basis)))).
Proof using blake2b_len md4_len.
  intros Hv HB He Hfuel. rewrite Signature_buffer by done.
  by rewrite read_blocks_FailingReader by (done || lia).
Qed.

(** ** How the reader cuts the input decides the blocks *)

Lemma read_blocks_OneByteReader fuel len (l : list byte) :
  (0 < len)%nat -> (length l < fuel)%nat ->
  read_blocks fuel (MkOneByteReader (NewReader l)) len =
    (map (fun b => [b]) l, Ok tt, MkOneByteReader (NewReader [])).
Proof.
  intros Hlen. revert fuel. induction l as [|b l IH]; intros fuel Hfuel.
  - destruct fuel as [|fuel]; [simpl in Hfuel; lia|].
    destruct len as [|len]; [lia|]. done.
  - destruct fuel as [|fuel]; [simpl in Hfuel; lia|].
    destruct len as [|len]; [lia|].
    cbn [read_blocks Read OneByteReader_Read one_r bytes_Reader_Read unread
         firstn skipn].
    rewrite IH by (simpl in Hfuel; lia). done.
Qed.

(** X9: from a reader that returns one byte per [Read]
    ([iotest.OneByteReader] over a [bytes.Reader]) every byte of the input
    becomes a block of its own, whatever [blockLen >= 1] is: the index has
    as many strong sums as the input has bytes, each the digest of one
    byte. *)
Theorem Signature_OneByteReader_blocks fuel basis B sl st :
  valid_config st sl -> 1 <= B -> (length basis < fuel)%nat ->
  exists sig out,
    Signature fuel (MkOneByteReader (NewReader basis)) (NewBuffer []) B sl st =
      (Ok sig, MkOneByteReader (NewReader []), out) /\
    strongSigs sig =
      map (fun b => firstn (N.to_nat sl) (full_digest st [b])) basis /\
    length (strongSigs sig) = length basis.
Proof using blake2b_len md4_len.
  intros Hv HB Hfuel. eexists _, _. split; [|split].
  - rewrite Signature_buffer by done.
    rewrite read_blocks_OneByteReader by lia. reflexivity.
  - rewrite add_entries_strongSigs. cbn [strongSigs app].
    by rewrite !map_map.
  - rewrite add_entries_strongSigs. cbn [strongSigs app].
    by rewrite !length_map.
Qed.

Lemma chunks_nil len : chunks len [] = [].
Proof. done. Qed.

Lemma read_blocks_DataEOFReader fuel len (l : list byte) :
  (0 < len)%nat -> (length l < fuel)%nat ->
  read_blocks fuel (MkDataEOFReader l) len =
    (removelast (chunks len l), Ok tt, MkDataEOFReader []).
Proof.
  intros Hlen. revert l. induction fuel as [|fuel IH]; intros l Hfuel; [lia|].
  cbn [read_blocks]. unfold Read, DataEOFReader_Read. cbn [pending].
  destruct l as [|b l]; [by destruct len|].
  rewrite chunks_cons by done.
  destruct (skipn len (b :: l)) as [|b' l'] eqn:Es; [done|].
  rewrite IH.
  - rewrite (chunks_cons len b' l') by done. done.
  - assert (length (skipn len (b :: l)) = S (length l')) as Hs by by rewrite Es.
    rewrite length_skipn in Hs. simpl in *. lia.
Qed.

(** X10: from a reader that returns its last bytes together with [io.EOF]
    the last block is always lost: the blocks recorded are the pieces of
    [blockLen] bytes of the input without the last piece, one fewer than
    [ceil(L / B)] for an input that is not empty. *)
Theorem Signature_DataEOFReader_blocks fuel basis B sl st :
  valid_config st sl -> 1 <= B -> (length basis < fuel)%nat ->
  exists sig out,
    Signature fuel (MkDataEOFReader basis) (NewBuffer []) B sl st =
      (Ok sig, MkDataEOFReader [], out) /\
    strongSigs sig =
      map (fun d => firstn (N.to_nat sl) (full_digest st d))
          (removelast (chunks (N.to_nat B) basis)) /\
    length (strongSigs sig) =
      ((length basis + N.to_nat B - 1) / N.to_nat B - 1)%nat.
Proof using blake2b_len md4_len.
  intros Hv HB Hfuel. eexists _, _. split; [|split].
  - rewrite Signature_buffer by done.
    rewrite read_blocks_DataEOFReader by lia. reflexivity.
  - rewrite add_entries_strongSigs. cbn [strongSigs app].
    by rewrite !map_map.
  - rewrite add_entries_strongSigs. cbn [strongSigs app].
    rewrite !length_map, <- chunks_length by lia.
    destruct (chunks (N.to_nat B) basis) as [|c cs] using rev_ind; [done|].
    rewrite removelast_last, length_app. simpl. lia.
Qed.

(** ** Builds of a concatenation *)

Lemma chunks_app len (a b : list byte) :
  (0 < len)%nat -> (length a mod len = 0)%nat ->
  chunks len (a ++ b) = chunks len a ++ chunks len b.
Proof.
  intros Hlen. remember (length a) as n eqn:Hn.
  revert a Hn. induction n as [n IH] using lt_wf_ind. intros a Hn Hmod.
  destruct a as [|x a]; [done|].
  assert (len <= n)%nat as Hle.
  { destruct (Nat.le_gt_cases len n) as [|Hgt]; [done|].
    rewrite Nat.mod_small in Hmod by done. subst n. simpl in Hmod. lia. }
  change ((x :: a) ++ b) with (x :: (a ++ b)).
  rewrite !chunks_cons by done. cbn [app].
  change (x :: (a ++ b)) with ((x :: a) ++ b).
  rewrite firstn_app, skipn_app.
  replace (len - length (x :: a))%nat with 0%nat by lia.
  cbn [firstn skipn]. rewrite app_nil_r. f_equal.
  apply (IH (length (skipn len (x :: a)))).
  - rewrite length_skipn. lia.
  - done.
  - rewrite length_skipn, <- Hn.
    assert ((n - len) mod len = n mod len)%nat as ->; [|done].
    replace n with ((n - len) + 1 * len)%nat at 2 by lia.
    by rewrite Nat.Div0.mod_add.
Qed.

(** X11: blocks do not reach across a multiple of the block length.  When
    the length of [a] is a multiple of [blockLen], the in-memory build of
    [a ++ b] has the strong sums of [a] followed by those of [b], and its
    output is the output for [a] followed by the records (the output
    without its 12 header bytes) for [b]. *)
Theorem Signature_of_concatenation fuel a b B sl st :
  valid_config st sl -> 1 <= B ->
  (length a mod N.to_nat B = 0)%nat ->
  (length (a ++ b) < fuel)%nat ->
  exists sa oa sb ob sab oab,
    Signature fuel (NewReader a) (NewBuffer []) B sl st =
      (Ok sa, NewReader [], NewBuffer oa) /\
    Signature fuel (NewReader b) (NewBuffer []) B sl st =
      (Ok sb, NewReader [], NewBuffer ob) /\
    Signature fuel (NewReader (a ++ b)) (NewBuffer []) B sl st =
      (Ok sab, NewReader [], NewBuffer oab) /\
    strongSigs sab = strongSigs sa ++ strongSigs sb /\
    oab = oa ++ skipn 12 ob.
Proof using blake2b_len md4_len.
  intros Hv HB Hmod Hfuel. rewrite length_app in Hfuel.
  eexists _, _, _, _, _, _.
  split; [apply Signature_bytes; [done | done | lia]|].
  split; [apply Signature_bytes; [done | done | lia]|].
  split; [apply Signature_bytes; [done | done | rewrite length_app; lia]|].
  rewrite !add_entries_strongSigs. cbn [strongSigs app].
  rewrite chunks_app by (done || lia).
  rewrite !map_app. split; [done|].
  unfold encode_records at 1. rewrite flat_map_app.
  rewrite <- !app_assoc. done.
Qed.

(** ** Strong sums of different lengths *)

(** X12: under one tag, a shorter strong sum is the beginning of a longer
    one: for [sl <= sl'] within the digest, [CalcStrongSum] with [sl]
    returns the first [sl] bytes of what it returns with [sl']. *)
Theorem CalcStrongSum_prefix data st sl sl' :
  valid_config st sl' -> sl <= sl' ->
  exists s s',
    CalcStrongSum data st sl = Ok s /\
    CalcStrongSum data st sl' = Ok s' /\
    s = firstn (N.to_nat sl) s' /\
    length s = N.to_nat sl /\ length s' = N.to_nat sl'.
Proof using blake2b_len md4_len.
  intros Hv' Hle.
  assert (valid_config st sl) as Hv.
  { unfold valid_config in *. destruct Hv' as [[? ?] | [? ?]]; [left | right];
      (split; [done|]); by etrans. }
  eexists _, _. split; [by apply CalcStrongSum_valid|].
  split; [by apply CalcStrongSum_valid|].
  pose proof (full_digest_length st sl data Hv).
  pose proof (full_digest_length st sl' data Hv').
  rewrite firstn_firstn, !length_firstn.
  repeat split; [f_equal|..]; lia.
Qed.

(** * Further properties of decoding *)

Lemma testbit_byte_high b n : 8 <= n -> N.testbit (Byte.to_N b) n = false.
Proof.
  intros Hn. pose proof (Byte.to_N_bounded b) as Hb.
  rewrite <- (N.mod_small (Byte.to_N b) (2 ^ 8)) by (change (2 ^ 8) with 256; lia).
  by apply N.mod_pow2_bits_high.
Qed.

Lemma testbit_shifted_byte b s m :
  N.testbit (N.shiftl (Byte.to_N b) s) m =
  (s <=? m) && (m <? s + 8) && N.testbit (Byte.to_N b) (m - s).
Proof.
  destruct (N.leb_spec s m) as [Hs|Hs]; simpl.
  - rewrite N.shiftl_spec_high' by done.
    destruct (N.ltb_spec m (s + 8)) as [Hm|Hm]; [done|].
    simpl. apply testbit_byte_high. lia.
  - by apply N.shiftl_spec_low.
Qed.

Lemma byte_of_N_to_N x b : x mod 256 = Byte.to_N b -> byte_of_N x = b.
Proof.
  intros Hx. unfold byte_of_N. by rewrite Hx, Byte.of_to_N.
Qed.

Lemma Uint32_byte b0 b1 b2 b3 k b :
  (k = 24 /\ b = b0) \/ (k = 16 /\ b = b1) \/ (k = 8 /\ b = b2) \/ (k = 0 /\ b = b3) ->
  N.shiftr (Uint32 [b0; b1; b2; b3]) k mod 256 = Byte.to_N b.
Proof.
  intros Hk. change 256 with (2 ^ 8). unfold Uint32.
  rewrite <- (N.shiftl_0_r (Byte.to_N b3)).
  apply N.bits_inj. intros n.
  destruct (N.ltb_spec n 8) as [Hn|Hn].
  - rewrite N.mod_pow2_bits_low, N.shiftr_spec' by done.
    rewrite !N.lor_spec, !testbit_shifted_byte.
    destruct Hk as [[-> ->] | [[-> ->] | [[-> ->] | [-> ->]]]];
      repeat match goal with
             | |- context [?a <=? ?b] => destruct (N.leb_spec a b); try lia
             | |- context [?a <? ?b] => destruct (N.ltb_spec a b); try lia
             end; simpl; rewrite ?orb_false_r; f_equal; lia.
  - rewrite N.mod_pow2_bits_high by done. symmetry. by apply testbit_byte_high.
Qed.

Lemma PutUint32_Uint32 b0 b1 b2 b3 :
  PutUint32 (Uint32 [b0; b1; b2; b3]) = [b0; b1; b2; b3].
Proof.
  unfold PutUint32.
  rewrite (byte_of_N_to_N _ b0), (byte_of_N_to_N _ b1),
          (byte_of_N_to_N _ b2), (byte_of_N_to_N _ b3); [done|..].
  - rewrite <- (N.shiftr_0_r (Uint32 _)). apply (Uint32_byte b0 b1 b2 b3). tauto.
  - apply (Uint32_byte b0 b1 b2 b3). tauto.
  - apply (Uint32_byte b0 b1 b2 b3). tauto.
  - apply (Uint32_byte b0 b1 b2 b3). tauto.
Qed.

Lemma Uint32_u32 b0 b1 b2 b3 : Uint32 [b0; b1; b2; b3] < 2 ^ 32.
Proof.
  destruct (N.eq_dec (Uint32 [b0; b1; b2; b3]) 0) as [->|Hz]; [done|].
  apply N.log2_lt_pow2; [lia|].
  destruct (N.lt_ge_cases (N.log2 (Uint32 [b0; b1; b2; b3])) 32) as [|Hge]; [done|].
  pose proof (N.bit_log2 _ Hz) as Hbit. revert Hbit. unfold Uint32.
  rewrite <- (N.shiftl_0_r (Byte.to_N b3)).
  rewrite !N.lor_spec, !testbit_shifted_byte.
  repeat match goal with
         | |- context [?a <? ?b] => destruct (N.ltb_spec a b); try lia
         end.
Qed.

(** [binary.Read] of a 32-bit value from a [bytes.Reader], case by case:
    four bytes are decoded; at the end of the data the error is [io.EOF];
    with one to three bytes left it is [io.ErrUnexpectedEOF], after a
    second [Read]. *)
Lemma binary_Read_bytes_cases fuel l :
  binary_Read fuel (NewReader l) =
    match fuel with
    | O => (OutOfFuel, NewReader l)
    | S fuel' =>
        match l with
        | [] => (Err EOF, NewReader [])
        | b0 :: b1 :: b2 :: b3 :: rest =>
            (Ok (Uint32 [b0; b1; b2; b3]), NewReader rest)
        | _ =>
            match fuel' with
            | O => (OutOfFuel, NewReader [])
            | S _ => (Err ErrUnexpectedEOF, NewReader [])
            end
        end
    end.
Proof.
  destruct fuel as [|[|fuel]];
    destruct l as [|b0 [|b1 [|b2 [|b3 rest]]]];
    try reflexivity;
    try apply binary_Read_bytes_nil; try apply binary_Read_bytes4;
    unfold binary_Read, io_ReadFull;
    (rewrite ReadAtLeast_loop_step by (simpl; lia));
    cbn [Read bytes_Reader_Read unread length Nat.sub firstn skipn app];
    (rewrite ReadAtLeast_loop_step by (simpl; lia));
    cbn [Read bytes_Reader_Read unread length Nat.sub firstn skipn app];
    (rewrite ReadAtLeast_loop_done by done); done.
Qed.

Section DecodeAnyReader.
Context {R : Type} `{Reader R}.

Lemma ReadSignature_loop_well_formed fuel (r r' : R) sl sigs m sigs' m' :
  Forall (fun s => length s = N.to_nat sl) sigs ->
  (forall w k, m !! w = Some k -> (k < length sigs)%nat) ->
  ReadSignature_loop fuel r sl sigs m = (Ok (sigs', m'), r') ->
  Forall (fun s => length s = N.to_nat sl) sigs' /\
  (forall w k, m' !! w = Some k -> (k < length sigs')%nat).
Proof.
  revert r sigs m. induction fuel as [|fuel IH]; intros r sigs m Hlen Hrange; [done|].
  cbn [ReadSignature_loop].
  destruct (binary_Read fuel r) as [[w|e| |] r1]; try done.
  - destruct (Read r1 (N.to_nat sl)) as [[strongSum err] r2].
    destruct err as [e|]; [done|].
    destruct (Nat.eqb_spec (length strongSum) (N.to_nat sl)) as [Hs|Hs]; [|done].
    cbn [negb]. apply IH.
    + apply Forall_app. split; [done|]. by constructor.
    + intros w' k. rewrite length_app. cbn [length].
      destruct (N.eq_dec w w') as [->|Hne].
      * rewrite lookup_insert_eq. intros [= <-]. lia.
      * rewrite lookup_insert_ne by done. intros Hk.
        specialize (Hrange w' k Hk). lia.
  - destruct e; try done. by intros [= <- <- <-].
Qed.

(** X13: a decoded index is well formed, whatever the reader: every
    strong sum in it has exactly [strongLen] bytes, and every position the
    weak index gives is one of [strongSigs]. *)
Theorem ReadSignature_index_well_formed fuel (r r' : R) sig :
  ReadSignature fuel r = (Ok sig, r') ->
  Forall (fun s => length s = N.to_nat (strongLen sig)) (strongSigs sig) /\
  (forall w k, weak2block sig !! w = Some k ->
               (k < length (strongSigs sig))%nat).
Proof.
  unfold ReadSignature.
  destruct (binary_Read fuel r) as [[magic|e| |] r1]; try done.
  destruct (binary_Read fuel r1) as [[bl|e| |] r2]; try done.
  destruct (binary_Read fuel r2) as [[sl|e| |] r3]; try done.
  destruct (ReadSignature_loop fuel r3 sl [] ∅) as [[[sigs m]|e| |] r4] eqn:E;
    try done.
  intros [= <- <-]. cbn [strongLen strongSigs weak2block].
  apply (ReadSignature_loop_well_formed _ _ _ _ _ _ _ _ (Forall_nil_2 _)) in E;
    [done|].
  intros w k. by rewrite lookup_empty.
Qed.
End DecodeAnyReader.

(** ** What decoding accepts *)

Lemma ReadSignature_loop_bytes_exact fuel l sl ret x r' :
  ReadSignature_loop fuel (NewReader l) sl (strongSigs ret) (weak2block ret)
    = (Ok x, r') ->
  r' = NewReader [] /\
  exists entries,
    l = encode_records entries /\
    Forall (wf_entry sl) entries /\
    x = (strongSigs (add_entries ret entries),
         weak2block (add_entries ret entries)).
Proof.
  revert l ret. induction fuel as [|fuel IH]; intros l ret; [done|].
  cbn [ReadSignature_loop]. rewrite binary_Read_bytes_cases.
  destruct fuel as [|fuel]; [done|].
  destruct l as [|b0 [|b1 [|b2 [|b3 rest]]]];
    [| destruct fuel; done | destruct fuel; done | destruct fuel; done |];
    cbv beta iota.
  - intros [= <- <-]. split; [done|]. by exists [].
  - unfold Read at 1, bytes_Reader_Read. cbn [unread].
    destruct rest as [|b rest]; [done|].
    destruct (Nat.eqb_spec (length (firstn (N.to_nat sl) (b :: rest)))
                (N.to_nat sl)) as [Hs|Hs]; [|done].
    cbn [negb]. intros Hloop.
    set (e := (Uint32 [b0; b1; b2; b3], firstn (N.to_nat sl) (b :: rest))).
    destruct (IH _ (add_entry ret e) Hloop) as (-> & entries & Hl & Hwf & ->).
    split; [done|]. exists (e :: entries). split; [|split; [|done]].
    + cbn [encode_records flat_map]. fold (encode_records entries).
      rewrite <- Hl. unfold encode_record, e. cbn [fst snd].
      rewrite PutUint32_Uint32, <- app_assoc, firstn_skipn. done.
    + constructor; [|done]. split; [apply Uint32_u32 | done].
Qed.

(** X14: decoding an in-memory stream succeeds only on an encoding.  When
    [ReadSignature] returns an index, the stream has been read to its end,
    and it is the header with the index's three values followed by whole
    records, each a 32-bit weak sum and [strongLen] bytes, that the index
    records in order. *)
Theorem ReadSignature_accepts_only_encodings fuel l sig r' :
  ReadSignature fuel (NewReader l) = (Ok sig, r') ->
  r' = NewReader [] /\
  exists entries,
    l = encode_header (sigType sig) (blockLen sig) (strongLen sig)
          ++ encode_records entries /\
    Forall (wf_entry (strongLen sig)) entries /\
    strongSigs sig = map snd entries /\
    sig = add_entries
            (MkSignatureType (sigType sig) (blockLen sig) (strongLen sig) [] ∅)
            entries.
Proof.
  unfold ReadSignature. rewrite binary_Read_bytes_cases.
  destruct fuel as [|fuel]; [done|].
  destruct l as [|a0 [|a1 [|a2 [|a3 l]]]]; try (destruct fuel; done).
  rewrite binary_Read_bytes_cases.
  destruct l as [|c0 [|c1 [|c2 [|c3 l]]]]; try (destruct fuel; done).
  rewrite binary_Read_bytes_cases.
  destruct l as [|d0 [|d1 [|d2 [|d3 l]]]]; try (destruct fuel; done).
  set (magic := Uint32 [a0; a1; a2; a3]).
  set (bl := Uint32 [c0; c1; c2; c3]).
  set (sl := Uint32 [d0; d1; d2; d3]).
  destruct (ReadSignature_loop (S fuel) (NewReader l) sl [] ∅)
    as [[x| | |] r1] eqn:E; try done.
  apply (ReadSignature_loop_bytes_exact (S fuel) l sl
           (MkSignatureType magic bl sl [] ∅)) in E.
  destruct E as (-> & entries & -> & Hwf & ->).
  intros [= <- <-]. split; [done|]. exists entries.
  cbn [sigType blockLen strongLen strongSigs].
  split; [|split; [done|split]].
  - unfold encode_header, magic, bl, sl. by rewrite !PutUint32_Uint32.
  - by rewrite add_entries_strongSigs.
  - apply (add_entries_eta (MkSignatureType magic bl sl [] ∅)).
Qed.

(** ** Truncated streams *)

(** X15: a stream too short for the header is rejected, with [io.EOF]
    when it stops right before a header field (0, 4 or 8 bytes) and with
    [io.ErrUnexpectedEOF] when it stops inside one. *)
Theorem ReadSignature_truncated_header fuel l :
  (length l < 12)%nat -> (2 <= fuel)%nat ->
  ReadSignature fuel (NewReader l) =
    (Err (if (length l mod 4 =? 0)%nat then EOF else ErrUnexpectedEOF),
     NewReader []).
Proof.
  intros Hl Hfuel. destruct fuel as [|[|fuel]]; [lia..|].
  unfold ReadSignature.
  do 12 (destruct l as [|? l];
         [repeat (rewrite binary_Read_bytes_cases; cbv beta iota); done|]).
  simpl in Hl. lia.
Qed.

Lemma ReadSignature_loop_bytes_cut_weak entries partial fuel sl sigs m :
  Forall (wf_entry sl) entries ->
  (0 < length partial < 4)%nat ->
  (length entries + 3 <= fuel)%nat ->
  ReadSignature_loop fuel (NewReader (encode_records entries ++ partial)) sl
      sigs m =
    (Err ErrUnexpectedEOF, NewReader []).
Proof.
  intros Hwf Hp. revert fuel sigs m.
  induction Hwf as [|e es [Hew Hes] Hwf IH]; intros fuel sigs m Hfuel.
  - destruct fuel as [|[|[|fuel]]]; [simpl in Hfuel; lia..|].
    cbn [encode_records flat_map app ReadSignature_loop].
    rewrite binary_Read_bytes_cases.
    destruct partial as [|p0 [|p1 [|p2 [|p3 p]]]]; simpl in Hp; try lia; done.
  - destruct fuel as [|[|fuel]]; [simpl in Hfuel; lia..|].
    cbn [encode_records flat_map]. fold (encode_records es).
    rewrite <- app_assoc.
    rewrite ReadSignature_loop_bytes_step by done.
    destruct (snd e ++ encode_records es ++ partial) as [|b s] eqn:E.
    + apply app_eq_nil in E as [_ E]. apply app_eq_nil in E as [_ ->].
      simpl in Hp. lia.
    + apply IH. simpl in Hfuel. lia.
Qed.

(** X16: a stream that stops inside the weak sum of a record, one to
    three bytes after a header and whole records, is rejected with
    [io.ErrUnexpectedEOF], whatever the strong length. *)
Theorem ReadSignature_truncated_weak_sum magic bl sl entries partial fuel :
  magic < 2 ^ 32 -> bl < 2 ^ 32 -> sl < 2 ^ 32 ->
  Forall (wf_entry sl) entries ->
  (0 < length partial < 4)%nat ->
  (length entries + 3 <= fuel)%nat ->
  ReadSignature fuel
      (NewReader (encode_header magic bl sl ++ encode_records entries ++ partial)) =
    (Err ErrUnexpectedEOF, NewReader []).
Proof.
  intros Hm Hb Hs Hwf Hp Hfuel. unfold ReadSignature, encode_header.
  destruct fuel as [|fuel]; [lia|].
  rewrite <- !app_assoc. rewrite !binary_Read_PutUint32 by done.
  by rewrite ReadSignature_loop_bytes_cut_weak.
Qed.

(** With [strongLen = 0], every in-memory stream of a header and at least
    one whole record is rejected with [io.EOF]. *)
Lemma ReadSignature_rejects_strongLen_0 magic bl entries fuel :
  magic < 2 ^ 32 -> bl < 2 ^ 32 ->
  Forall (wf_entry 0) entries -> entries <> [] ->
  (length entries + 1 <= fuel)%nat ->
  ReadSignature fuel
      (NewReader (encode_header magic bl 0 ++ encode_records entries)) =
    (Err EOF, NewReader []).
Proof.
  intros Hm Hb Hwf Hne Hfuel. unfold ReadSignature, encode_header.
  destruct fuel as [|fuel]; [lia|].
  rewrite <- !app_assoc. rewrite !binary_Read_PutUint32 by done.
  by rewrite ReadSignature_loop_bytes_strongLen_0.
Qed.

(** X17: with [strongLen = 0], which [Signature] accepts, the output of
    the build of any in-memory input that is not empty cannot be read
    back: the build succeeds, and decoding its output from memory ends
    with [io.EOF] as its error. *)
Theorem decode_of_build_fails_for_strongLen_0 fuel fuel' b basis B st :
  valid_config st 0 -> st < 2 ^ 32 -> 1 <= B -> B < 2 ^ 32 ->
  (length (b :: basis) < fuel)%nat -> (length (b :: basis) + 1 <= fuel')%nat ->
  exists sig out,
    Signature fuel (NewReader (b :: basis)) (NewBuffer []) B 0 st =
      (Ok sig, NewReader [], NewBuffer out) /\
    ReadSignature fuel' (NewReader out) = (Err EOF, NewReader []).
Proof using blake2b_len md4_len weak_u32.
  intros Hv Hst HB1 HB Hfuel Hfuel'.
  eexists _, _. split; [by apply Signature_bytes|].
  assert (0 < N.to_nat B)%nat as Hb by lia.
  apply ReadSignature_rejects_strongLen_0; try done.
  - by apply block_entries_wf.
  - rewrite length_map. rewrite chunks_length by exact Hb.
    assert ((length (b :: basis) + N.to_nat B - 1) / N.to_nat B
            <= length (b :: basis))%nat; [|lia].
    apply Nat.Div0.div_le_upper_bound. simpl. nia.
Qed.

(** ** Decoding through short reads *)

Lemma binary_Read_OneByteReader fuel b0 b1 b2 b3 rest :
  binary_Read (S (S (S (S fuel))))
      (MkOneByteReader (NewReader (b0 :: b1 :: b2 :: b3 :: rest))) =
    (Ok (Uint32 [b0; b1; b2; b3]), MkOneByteReader (NewReader rest)).
Proof.
  unfold binary_Read, io_ReadFull.
  do 4 (rewrite ReadAtLeast_loop_step by (simpl; lia);
        cbn [Read OneByteReader_Read one_r bytes_Reader_Read unread length
             Nat.sub firstn skipn app]).
  rewrite ReadAtLeast_loop_done by done. done.
Qed.

(** X18: read through a reader that returns one byte per [Read], a
    well-formed stream with a record and [strongLen >= 2] is rejected: the
    one [Read] for the strong sum of the first record returns a single
    byte, and the error says so. *)
Theorem ReadSignature_OneByteReader_fails magic bl sl e es fuel :
  magic < 2 ^ 32 -> bl < 2 ^ 32 -> sl < 2 ^ 32 ->
  wf_entry sl e -> 2 <= sl -> (5 <= fuel)%nat ->
  fst (ReadSignature fuel
         (MkOneByteReader
            (NewReader (encode_header magic bl sl ++ encode_records (e :: es)))))
  = Err (Errorf_short_strong_hash 1 sl).
Proof.
  intros Hm Hb Hs [Hw Hes] Hsl Hfuel.
  destruct fuel as [|[|[|[|[|fuel]]]]]; [lia..|].
  unfold ReadSignature, encode_header, PutUint32.
  cbn [app]. rewrite !binary_Read_OneByteReader.
  fold (PutUint32 magic). fold (PutUint32 bl). fold (PutUint32 sl).
  rewrite !Uint32_PutUint32 by done.
  cbn [ReadSignature_loop encode_records flat_map].
  unfold encode_record at 1, PutUint32 at 1. cbn [app].
  rewrite binary_Read_OneByteReader.
  destruct (snd e) as [|s0 s] eqn:Es; [simpl in Hes; lia|].
  destruct (N.to_nat sl) as [|[|n]] eqn:En; [lia..|].
  cbn [Read OneByteReader_Read one_r bytes_Reader_Read unread app firstn
       length Nat.eqb negb fst].
  reflexivity.
Qed.

(** ** The single [Read] of a strong sum

    Line 134 reads the strong sum of a record with one [r.Read] and takes
    fewer bytes than [strongLen] for the end of the stream (line 138),
    where the weak sum before it was read with [io.ReadFull] (inside
    [binary.Read]).  The build has the same single [Read] at line 77. *)

Lemma ReadSignature_OneByteReader_first_record magic bl sl e rest fuel :
  magic < 2 ^ 32 -> bl < 2 ^ 32 -> sl < 2 ^ 32 ->
  wf_entry sl e -> 2 <= sl -> (5 <= fuel)%nat ->
  ReadSignature fuel
      (MkOneByteReader
         (NewReader (encode_header magic bl sl ++ encode_record e ++ rest))) =
    (Err (Errorf_short_strong_hash 1 sl),
     MkOneByteReader (NewReader (skipn 1 (snd e) ++ rest))).
Proof.
  intros Hm Hb Hs [Hw Hes] Hsl Hfuel.
  destruct fuel as [|[|[|[|[|fuel]]]]]; [lia..|].
  unfold ReadSignature, encode_header, PutUint32.
  cbn [app]. rewrite !binary_Read_OneByteReader.
  fold (PutUint32 magic). fold (PutUint32 bl). fold (PutUint32 sl).
  rewrite !Uint32_PutUint32 by done.
  cbn [ReadSignature_loop].
  unfold encode_record, PutUint32. cbn [app].
  rewrite binary_Read_OneByteReader.
  destruct (snd e) as [|s0 s] eqn:Es; [simpl in Hes; lia|].
  destruct (N.to_nat sl) as [|[|n]] eqn:En; [lia..|].
  cbn [Read OneByteReader_Read one_r bytes_Reader_Read unread app firstn
       skipn length Nat.eqb negb].
  fold (PutUint32 (fst e)). rewrite Uint32_PutUint32 by done.
  reflexivity.
Qed.

(** C1, on a reader with short reads: under a valid configuration with
    [strongLen >= 2], whatever the input that is not empty, the build into
    a buffer succeeds, and decoding the bytes it wrote through a reader
    that returns one byte per [Read] ([iotest.OneByteReader]) does not
    give the index back: it ends with the error for a strong sum of 1 of
    [strongLen] bytes. *)
Theorem decode_of_build_fails_on_short_reads fuel fuel' b basis B sl st :
  valid_config st sl -> st < 2 ^ 32 -> 1 <= B -> B < 2 ^ 32 -> 2 <= sl ->
  (length (b :: basis) < fuel)%nat -> (5 <= fuel')%nat ->
  exists sig out r',
    Signature fuel (NewReader (b :: basis)) (NewBuffer []) B sl st =
      (Ok sig, NewReader [], NewBuffer out) /\
    ReadSignature fuel' (MkOneByteReader (NewReader out)) =
      (Err (Errorf_short_strong_hash 1 sl), r').
Proof using blake2b_len md4_len weak_u32.
  intros Hv Hst HB1 HB Hsl Hfuel Hfuel'.
  assert (0 < N.to_nat B)%nat as Hb by lia.
  eexists _, _, _. split; [by apply Signature_bytes|].
  rewrite chunks_cons by done. cbn [map encode_records flat_map].
  apply ReadSignature_OneByteReader_first_record; try done.
  - by apply valid_config_u32 in Hv.
  - split; [apply weak_u32 | by apply block_entry_length].
Qed.

(** C4, on a reader with short reads: a well-formed stream, a header and
    whole records with [strongLen >= 2] ending at a record's boundary, is
    decoded through a [bytes.Reader] and is rejected through a reader
    that returns one byte per [Read], with the error for a strong sum of 1
    of [strongLen] bytes. *)
Theorem ReadSignature_rejects_whole_records_on_short_reads
    magic bl sl e es fuel :
  magic < 2 ^ 32 -> bl < 2 ^ 32 -> sl < 2 ^ 32 ->
  Forall (wf_entry sl) (e :: es) -> 2 <= sl ->
  (length (e :: es) + 5 <= fuel)%nat ->
  ReadSignature fuel
      (NewReader (encode_header magic bl sl ++ encode_records (e :: es))) =
    (Ok (add_entries (MkSignatureType magic bl sl [] ∅) (e :: es)),
     NewReader []) /\
  ReadSignature fuel
      (MkOneByteReader
         (NewReader (encode_header magic bl sl ++ encode_records (e :: es)))) =
    (Err (Errorf_short_strong_hash 1 sl),
     MkOneByteReader (NewReader (skipn 1 (snd e) ++ encode_records es))).
Proof.
  intros Hm Hb Hs Hwf Hsl Hfuel. split.
  - apply ReadSignature_bytes; try done; [left; lia | lia].
  - cbn [encode_records flat_map]. fold (encode_records es).
    apply ReadSignature_OneByteReader_first_record; try done.
    + by inversion Hwf.
    + lia.
Qed.

(** Decoding makes no error about the configuration: whatever the
    reader, an error of [ReadSignature] is one a [Read] of the reader
    returned, [io.ErrUnexpectedEOF] (from [io.ReadFull] inside
    [binary.Read]) or the error for a short strong sum. *)
Section ReaderErrors.
Context {R : Type} `{Reader R}.

Lemma ReadAtLeast_loop_reader_error fuel (r : R) len min got err got' e r' :
  ReadAtLeast_loop fuel r len min got err = (Ok (got', Some e), r') ->
  (forall e0, err = Some e0 -> reader_error R e0) ->
  reader_error R e.
Proof.
  revert r got err. induction fuel as [|fuel IH]; intros r got err; simpl.
  - destruct ((length got <? min)%nat && is_nil_err err); [done|].
    intros [= _ -> _] Herr. by apply Herr.
  - destruct ((length got <? min)%nat && is_nil_err err).
    + destruct (Read r (len - length got)%nat) as [[d err1] r1] eqn:E.
      intros Hl _. eapply IH; [exact Hl|].
      intros e0 ->. by exists r, (len - length got)%nat, d, r1.
    + intros [= _ -> _] Herr. by apply Herr.
Qed.

Lemma binary_Read_reader_error fuel (r : R) e r' :
  binary_Read fuel r = (Err e, r') ->
  reader_error R e \/ e = ErrUnexpectedEOF.
Proof.
  unfold binary_Read, io_ReadFull.
  destruct (ReadAtLeast_loop fuel r 4 4 [] None) as [res r1] eqn:E.
  destruct res as [[got err]| e0 | |]; try done;
    [|by apply ReadAtLeast_loop_no_Err in E].
  destruct (4 <=? length got)%nat; [done|].
  destruct ((0 <? length got)%nat && is_EOF err).
  - intros [= <- <-]. by right.
  - destruct err as [e0|]; [|done]. intros [= <- <-]. left.
    by apply ReadAtLeast_loop_reader_error in E.
Qed.

Lemma ReadSignature_loop_reader_error fuel (r : R) sl sigs m e r' :
  ReadSignature_loop fuel r sl sigs m = (Err e, r') ->
  reader_error R e \/ e = ErrUnexpectedEOF \/
  exists n sl', e = Errorf_short_strong_hash n sl'.
Proof.
  revert r sigs m. induction fuel as [|fuel IH]; intros r sigs m; [done|].
  cbn [ReadSignature_loop].
  destruct (binary_Read fuel r) as [res r1] eqn:E.
  destruct res as [w|e1| |]; try done.
  - destruct (Read r1 (N.to_nat sl)) as [[strong err] r2] eqn:Er.
    destruct err as [e1|].
    + intros [= <- _]. left. by exists r1, (N.to_nat sl), strong, r2.
    + destruct (negb _).
      * intros [= <- _]. right; right. eauto.
      * apply IH.
  - apply binary_Read_reader_error in E.
    destruct e1; [done|..]; intros [= <- _]; destruct E as [E | E]; by eauto.
Qed.

Lemma ReadSignature_reader_error fuel (r : R) e r' :
  ReadSignature fuel r = (Err e, r') ->
  reader_error R e \/ e = ErrUnexpectedEOF \/
  exists n sl, e = Errorf_short_strong_hash n sl.
Proof.
  unfold ReadSignature.
  destruct (binary_Read fuel r) as [res r1] eqn:E1.
  destruct res as [magic|e1| |]; try done;
    [|intros [= <- _]; apply binary_Read_reader_error in E1;
      destruct E1; by eauto].
  destruct (binary_Read fuel r1) as [res r2] eqn:E2.
  destruct res as [bl|e1| |]; try done;
    [|intros [= <- _]; apply binary_Read_reader_error in E2;
      destruct E2; by eauto].
  destruct (binary_Read fuel r2) as [res r3] eqn:E3.
  destruct res as [sl|e1| |]; try done;
    [|intros [= <- _]; apply binary_Read_reader_error in E3;
      destruct E3; by eauto].
  destruct (ReadSignature_loop fuel r3 sl [] ∅) as [res r4] eqn:E.
  destruct res as [[sigs m]|e1| |]; try done.
  intros [= <- _]. by apply ReadSignature_loop_reader_error in E.
Qed.
End ReaderErrors.

(** C10, on two streams with a complete header and well-formed records,
    whatever the tag and the block length.  With [strongLen = 0] and at
    least one record the stream is rejected through a [bytes.Reader], with
    [io.EOF]: the [Read] of the last record's zero bytes finds the reader
    at its end.  With [strongLen >= 2] it is rejected through a reader
    that returns one byte per [Read].  Neither error is about the
    configuration, and none ever is: whatever the reader, an error of
    decoding is one the reader returned, [io.ErrUnexpectedEOF] or the
    error for a short strong sum. *)
Theorem ReadSignature_fails_under_complete_header :
  (forall magic bl entries fuel,
      magic < 2 ^ 32 -> bl < 2 ^ 32 ->
      Forall (wf_entry 0) entries -> entries <> [] ->
      (length entries + 1 <= fuel)%nat ->
      ReadSignature fuel
          (NewReader (encode_header magic bl 0 ++ encode_records entries)) =
        (Err EOF, NewReader [])) /\
  (forall magic bl sl e es fuel,
      magic < 2 ^ 32 -> bl < 2 ^ 32 -> sl < 2 ^ 32 ->
      Forall (wf_entry sl) (e :: es) -> 2 <= sl -> (5 <= fuel)%nat ->
      ReadSignature fuel
          (MkOneByteReader
             (NewReader (encode_header magic bl sl ++ encode_records (e :: es)))) =
        (Err (Errorf_short_strong_hash 1 sl),
         MkOneByteReader (NewReader (skipn 1 (snd e) ++ encode_records es)))) /\
  (forall (R : Type) (HR : Reader R) fuel (r r' : R) e,
      ReadSignature fuel r = (Err e, r') ->
      reader_error R e \/ e = ErrUnexpectedEOF \/
      exists n sl, e = Errorf_short_strong_hash n sl).
Proof.
  split; [|split].
  - intros. by apply ReadSignature_rejects_strongLen_0.
  - intros magic bl sl e es fuel Hm Hb Hs Hwf Hsl Hfuel.
    cbn [encode_records flat_map]. fold (encode_records es).
    apply ReadSignature_OneByteReader_first_record; try done.
    by inversion Hwf.
  - intros R HR fuel r r' e. apply ReadSignature_reader_error.
Qed.

End SignatureGo.


(** * The development on concrete inputs *)

Lemma sample_Sum256_len d : length (sample_Sum256 d) = 32%nat.
Proof.
  unfold sample_Sum256.
  rewrite length_firstn, length_app, repeat_length. lia.
Qed.

Lemma sample_md4_len d : length (sample_md4 d) = 16%nat.
Proof.
  unfold sample_md4.
  rewrite length_firstn, length_app, repeat_length. lia.
Qed.

Lemma sample_weak_u32 d : sample_weak d < 2 ^ 32.
Proof.
  unfold sample_weak.
  assert (forall acc, acc < 2 ^ 32 ->
            fold_left (fun acc b => (acc + Byte.to_N b) mod 2 ^ 32) d acc < 2 ^ 32)
    as Hacc.
  { induction d as [|b d IH]; intros acc Hacc; [done|].
    cbn [fold_left]. apply IH. by apply N.mod_upper_bound. }
  by apply Hacc.
Qed.

Lemma RS_magic_distinct : RS_BLAKE2_SIG_MAGIC <> RS_MD4_SIG_MAGIC.
Proof. done. Qed.

Lemma RS_valid_config_MD4_16 :
  valid_config RS_BLAKE2_SIG_MAGIC RS_MD4_SIG_MAGIC RS_MD4_SIG_MAGIC 16.
Proof. right. split; [done|]. unfold MD4_SUM_LENGTH. lia. Qed.

Local Abbreviation sSignature :=
  (Signature sample_Sum256 sample_md4 sample_weak
     RS_BLAKE2_SIG_MAGIC RS_MD4_SIG_MAGIC).
Local Abbreviation sCalcStrongSum :=
  (CalcStrongSum sample_Sum256 sample_md4 RS_BLAKE2_SIG_MAGIC RS_MD4_SIG_MAGIC).

(** C3, the claim as stated fails: asked for 33 bytes of the 32-byte
    digest, or 17 of the 16-byte one, [CalcStrongSum] panics and returns
    nothing, so no error either.  (The digests' values play no part.) *)
Lemma CalcStrongSum_overlong_is_no_error :
  sCalcStrongSum [x61] RS_BLAKE2_SIG_MAGIC 33 = Panicked /\
  sCalcStrongSum [x61] RS_MD4_SIG_MAGIC 17 = Panicked /\
  (forall e, sCalcStrongSum [x61] RS_BLAKE2_SIG_MAGIC 33 <> Err e).
Proof. by repeat split. Qed.

Lemma CalcStrongSum_slices_or_panics_witness :
  RS_BLAKE2_SIG_MAGIC <> RS_MD4_SIG_MAGIC /\
  20 <= BLAKE2_SUM_LENGTH /\
  sCalcStrongSum [x61] RS_BLAKE2_SIG_MAGIC 20 =
    Ok (firstn 20 (sample_Sum256 [x61])) /\
  length (firstn 20 (sample_Sum256 [x61])) = 20%nat.
Proof.
  assert (20 <= BLAKE2_SUM_LENGTH) as Hle by (unfold BLAKE2_SUM_LENGTH; lia).
  split; [exact RS_magic_distinct|]. split; [exact Hle|].
  destruct (CalcStrongSum_slices_or_panics sample_Sum256 sample_md4
              RS_BLAKE2_SIG_MAGIC RS_MD4_SIG_MAGIC
              sample_Sum256_len sample_md4_len
              [x61] RS_BLAKE2_SIG_MAGIC 20 RS_magic_distinct) as (Hb & _).
  exact (proj1 (Hb eq_refl) Hle).
Defined.

Lemma Signature_rejects_before_io_witness :
  ~ valid_config RS_BLAKE2_SIG_MAGIC RS_MD4_SIG_MAGIC RS_BLAKE2_SIG_MAGIC 33 /\
  exists e,
    sSignature 0 (NewReader abcde) (NewBuffer []) 4 33 RS_BLAKE2_SIG_MAGIC =
      (Err e, NewReader abcde, NewBuffer []).
Proof.
  assert (~ valid_config RS_BLAKE2_SIG_MAGIC RS_MD4_SIG_MAGIC
              RS_BLAKE2_SIG_MAGIC 33) as Hbad.
  { unfold valid_config, BLAKE2_SUM_LENGTH. intros [[_ ?] | [? _]]; [lia|done]. }
  split; [exact Hbad|].
  destruct (Signature_rejects_before_io sample_Sum256 sample_md4 sample_weak
              RS_BLAKE2_SIG_MAGIC RS_MD4_SIG_MAGIC
              0%nat (NewReader abcde) (NewBuffer []) 4 33 RS_BLAKE2_SIG_MAGIC Hbad)
    as (e & He & _).
  exists e. exact He.
Defined.

Lemma strong_sums_are_truncated_digests_witness :
  exists sig out,
    sSignature 9 (NewReader abcdwxyz) (NewBuffer []) 4 16 RS_MD4_SIG_MAGIC =
      (Ok sig, NewReader [], out) /\
    strongSigs sig = [firstn 16 (sample_md4 [x61; x62; x63; x64]);
                      firstn 16 (sample_md4 [x77; x78; x79; x7a])].
Proof.
  eexists _, _.
  assert (sSignature 9 (NewReader abcdwxyz) (NewBuffer []) 4 16 RS_MD4_SIG_MAGIC
          = _) as Hbuild by (vm_compute; reflexivity).
  split; [exact Hbuild|].
  destruct (strong_sums_are_truncated_digests sample_Sum256 sample_md4 sample_weak
              RS_BLAKE2_SIG_MAGIC RS_MD4_SIG_MAGIC
              sample_Sum256_len sample_md4_len
              9%nat (NewReader abcdwxyz) _ _ 4 16 RS_MD4_SIG_MAGIC _
              RS_magic_distinct RS_valid_config_MD4_16 Hbuild)
    as (blocks & Hblocks & Hsigs & _ & _ & Hmd4).
  vm_compute in Hblocks. injection Hblocks as <-. rewrite Hsigs. cbn [map].
  by rewrite !Hmd4.
Defined.


Lemma decode_build_roundtrip_witness :
  valid_config RS_BLAKE2_SIG_MAGIC RS_MD4_SIG_MAGIC RS_MD4_SIG_MAGIC 16 /\
  exists sig out,
    sSignature 9 (NewReader abcdwxyz) (NewBuffer []) 4 16 RS_MD4_SIG_MAGIC =
      (Ok sig, NewReader [], NewBuffer out) /\
    ReadSignature 10 (NewReader out) = (Ok sig, NewReader []).
Proof.
  split; [exact RS_valid_config_MD4_16|].
  apply (decode_build_roundtrip sample_Sum256 sample_md4 sample_weak
           RS_BLAKE2_SIG_MAGIC RS_MD4_SIG_MAGIC
           sample_Sum256_len sample_md4_len sample_weak_u32
           abcdwxyz 4 16 RS_MD4_SIG_MAGIC 9%nat 10%nat
           RS_valid_config_MD4_16);
    first [done | vm_compute; lia].
Defined.

Lemma ReadSignature_end_of_stream_witness :
  Forall (wf_entry 2) [(7, [x01; x02]); (7, [x03; x04])] /\
  ReadSignature 4
      (NewReader (encode_header RS_MD4_SIG_MAGIC 4 2 ++
                  encode_records [(7, [x01; x02]); (7, [x03; x04])])) =
    (Ok (MkSignatureType RS_MD4_SIG_MAGIC 4 2 [[x01; x02]; [x03; x04]]
           (<[7 := 1%nat]> (<[7 := 0%nat]> ∅))), NewReader []) /\
  ReadSignature 4
      (NewReader (encode_header RS_MD4_SIG_MAGIC 4 2 ++
                  encode_records [(7, [x01; x02])] ++ PutUint32 7 ++ [x03])) =
    (Err (Errorf_short_strong_hash 1 2), NewReader []).
Proof.
  assert (Forall (wf_entry 2) [(7, [x01; x02]); (7, [x03; x04])]) as Hwf
    by by repeat constructor.
  assert (Forall (wf_entry 2) [(7, [x01; x02])]) as Hwf1
    by by repeat constructor.
  destruct ReadSignature_end_of_stream as (_ & _ & Hwhole & Hcut).
  split; [exact Hwf|]. split.
  - rewrite (Hwhole RS_MD4_SIG_MAGIC 4 2 _ 4%nat);
      first [done | by left | simpl; lia].
  - destruct (Hcut RS_MD4_SIG_MAGIC 4 2 [(7, [x01; x02])] 7 [x03] 4%nat
                ltac:(done) ltac:(done) ltac:(done) Hwf1 ltac:(done)
                ltac:(simpl; lia) ltac:(simpl; lia))
      as (e & He & Hcase).
    rewrite He. by destruct Hcase as [[_ ?] | [-> _]].
Defined.

Lemma ReadSignature_takes_header_verbatim_witness :
  0xdeadbeef <> RS_BLAKE2_SIG_MAGIC /\ 0xdeadbeef <> RS_MD4_SIG_MAGIC /\
  Forall (wf_entry 3) [(1, [x01; x02; x03])] /\
  exists sig,
    ReadSignature 3
        (NewReader (encode_header 0xdeadbeef 0 3 ++
                    encode_records [(1, [x01; x02; x03])])) =
      (Ok sig, NewReader []) /\
    sigType sig = 0xdeadbeef /\ blockLen sig = 0 /\ strongLen sig = 3.
Proof.
  assert (Forall (wf_entry 3) [(1, [x01; x02; x03])]) as Hwf
    by by repeat constructor.
  split; [done|]. split; [done|]. split; [exact Hwf|].
  destruct (ReadSignature_takes_header_verbatim 0xdeadbeef 0 3
              [(1, [x01; x02; x03])] 3%nat
              ltac:(done) ltac:(done) ltac:(done) Hwf
              ltac:(by left) ltac:(simpl; lia))
    as [(sig & Hdec & H1 & H2 & H3 & _) _].
  by exists sig.
Defined.

Lemma Signature_short_reads_eight_blocks_witness :
  exists sig out,
    sSignature 9 (MkOneByteReader (NewReader abcdwxyz)) (NewBuffer []) 4 16
        RS_MD4_SIG_MAGIC =
      (Ok sig, MkOneByteReader (NewReader []), out) /\
    length (strongSigs sig) = 8%nat.
Proof.
  destruct (Signature_short_reads_eight_blocks sample_Sum256 sample_md4 sample_weak
              RS_BLAKE2_SIG_MAGIC RS_MD4_SIG_MAGIC
              sample_Sum256_len sample_md4_len)
    as (sig & out & Hbuild & _ & Hlen & _).
  by exists sig, out.
Defined.

Lemma Signature_drops_block_read_with_EOF_witness :
  exists sig out,
    sSignature 3 (MkDataEOFReader abcde) (NewBuffer []) 4 16 RS_MD4_SIG_MAGIC =
      (Ok sig, MkDataEOFReader [], out) /\
    length (strongSigs sig) = 1%nat /\
    length (Bytes out) = (12 + (4 + 16))%nat.
Proof.
  destruct (Signature_drops_block_read_with_EOF sample_Sum256 sample_md4 sample_weak
              RS_BLAKE2_SIG_MAGIC RS_MD4_SIG_MAGIC
              sample_Sum256_len sample_md4_len)
    as (sig & out & Hbuild & _ & Hsigs & Hout).
  exists sig, out. split; [exact Hbuild|].
  rewrite Hsigs, Hout. by split.
Defined.

Lemma Signature_ignores_strong_write_error_witness :
  RS_BLAKE2_SIG_MAGIC <> RS_MD4_SIG_MAGIC /\
  exists sig out,
    sSignature 2 (NewReader [x61; x62; x63; x64]) (MkLimitedWriter 4 []) 4 16
        RS_MD4_SIG_MAGIC =
      (Ok sig, NewReader [], out) /\
    length (strongSigs sig) = 1%nat /\
    length (accepted out) = (12 + 4)%nat.
Proof.
  split; [exact RS_magic_distinct|].
  destruct (Signature_ignores_strong_write_error sample_Sum256 sample_md4 sample_weak
              RS_BLAKE2_SIG_MAGIC RS_MD4_SIG_MAGIC
              sample_Sum256_len sample_md4_len RS_magic_distinct)
    as [_ Hbuild].
  eexists _, _. split; [exact Hbuild|]. by split.
Defined.

(** ** The further properties on concrete inputs *)

Local Abbreviation sample_args T :=
  (T sample_Sum256 sample_md4 sample_weak RS_BLAKE2_SIG_MAGIC RS_MD4_SIG_MAGIC
     sample_Sum256_len sample_md4_len).

Lemma RS_valid_config_MD4_0 :
  valid_config RS_BLAKE2_SIG_MAGIC RS_MD4_SIG_MAGIC RS_MD4_SIG_MAGIC 0.
Proof. right. split; [done|]. unfold MD4_SUM_LENGTH. lia. Qed.

Lemma Signature_never_panics_witness :
  fst (fst (sSignature 9 (NewReader abcdwxyz) (NewBuffer []) 4 40
              RS_BLAKE2_SIG_MAGIC)) <> Panicked.
Proof.
  exact (sample_args Signature_never_panics 9%nat (NewReader abcdwxyz)
           (NewBuffer []) 4 40 RS_BLAKE2_SIG_MAGIC).
Defined.

Lemma Signature_index_whatever_the_writer_witness :
  exists sig out,
    sSignature 2 (NewReader [x61; x62; x63; x64]) (MkLimitedWriter 4 []) 4 16
        RS_MD4_SIG_MAGIC = (Ok sig, NewReader [], out) /\
    fst (sSignature 2 (NewReader [x61; x62; x63; x64]) (NewBuffer []) 4 16
           RS_MD4_SIG_MAGIC) = (Ok sig, NewReader []).
Proof.
  eexists _, _.
  assert (sSignature 2 (NewReader [x61; x62; x63; x64]) (MkLimitedWriter 4 [])
            4 16 RS_MD4_SIG_MAGIC = _) as Hbuild by (vm_compute; reflexivity).
  split; [exact Hbuild|].
  destruct (sample_args Signature_index_whatever_the_writer _ _ _ _ _ _ _ _ _
              RS_valid_config_MD4_16 Hbuild) as (blocks & _ & _ & Hbuf).
  exact Hbuf.
Defined.

Lemma weak2block_exact_witness :
  exists sig out,
    sSignature 9 (NewReader abbaab) (NewBuffer []) 2 16 RS_MD4_SIG_MAGIC =
      (Ok sig, NewReader [], out) /\
    weak2block sig !! 195 = Some 2%nat /\
    weak2block sig !! 7 = None.
Proof.
  eexists _, _.
  assert (sSignature 9 (NewReader abbaab) (NewBuffer []) 2 16 RS_MD4_SIG_MAGIC
          = _) as Hbuild by (vm_compute; reflexivity).
  split; [exact Hbuild|].
  split.
  - destruct (sample_args weak2block_exact _ _ _ _ _ _ _ _ _
                [[x61; x62]; [x62; x61]; [x61; x62]] 195
                RS_valid_config_MD4_16 Hbuild eq_refl) as [Hsome _].
    apply Hsome. split; [done|]. intros [|[|[|n]]] Hn; try lia; done.
  - destruct (sample_args weak2block_exact _ _ _ _ _ _ _ _ _
                [[x61; x62]; [x62; x61]; [x61; x62]] 7
                RS_valid_config_MD4_16 Hbuild eq_refl) as [_ Hnone].
    apply Hnone. intros [|[|[|n]]]; done.
Defined.

Lemma Signature_index_well_formed_witness :
  exists sig out,
    sSignature 9 (NewReader abcde) (NewBuffer []) 4 16 RS_MD4_SIG_MAGIC =
      (Ok sig, NewReader [], out) /\
    strongLen sig = 16 /\
    Forall (fun s => length s = 16%nat) (strongSigs sig).
Proof.
  eexists _, _.
  assert (sSignature 9 (NewReader abcde) (NewBuffer []) 4 16 RS_MD4_SIG_MAGIC
          = _) as Hbuild by (vm_compute; reflexivity).
  split; [exact Hbuild|].
  destruct (sample_args Signature_index_well_formed _ _ _ _ _ _ _ _ _
              RS_valid_config_MD4_16 Hbuild) as (_ & _ & Hsl & _ & Hlen & _).
  split; [exact Hsl | exact Hlen].
Defined.

Lemma Signature_empty_input_witness :
  valid_config RS_BLAKE2_SIG_MAGIC RS_MD4_SIG_MAGIC RS_MD4_SIG_MAGIC 0 /\
  sSignature 1 (NewReader []) (NewBuffer []) 0 0 RS_MD4_SIG_MAGIC =
    (Ok (MkSignatureType RS_MD4_SIG_MAGIC 0 0 [] ∅), NewReader [],
     NewBuffer (encode_header RS_MD4_SIG_MAGIC 0 0)) /\
  ReadSignature 2 (NewReader (encode_header RS_MD4_SIG_MAGIC 0 0)) =
    (Ok (MkSignatureType RS_MD4_SIG_MAGIC 0 0 [] ∅), NewReader []).
Proof.
  split; [exact RS_valid_config_MD4_0|].
  destruct (sample_args Signature_empty_input 1%nat 2%nat 0 0 RS_MD4_SIG_MAGIC
              RS_valid_config_MD4_0 ltac:(done) ltac:(done)
              ltac:(lia) ltac:(lia)) as (Hb & _ & Hd).
  by split.
Defined.

Lemma Signature_blockLen_0_never_ends_witness :
  fst (fst (sSignature 50 (NewReader abcde) (NewBuffer []) 0 16
              RS_MD4_SIG_MAGIC)) = OutOfFuel.
Proof.
  destruct (sample_args Signature_blockLen_0_never_ends 50%nat x61
              [x62; x63; x64; x65] 16 RS_MD4_SIG_MAGIC RS_valid_config_MD4_16)
    as [Hrun _].
  unfold abcde. by rewrite Hrun.
Defined.

Lemma Signature_output_length_witness :
  length (Bytes (snd (sSignature 9 (NewReader abcde) (NewBuffer []) 4 16
                        RS_MD4_SIG_MAGIC))) = 52%nat.
Proof.
  rewrite (Signature_output_length sample_Sum256 sample_md4 sample_weak
             RS_BLAKE2_SIG_MAGIC RS_MD4_SIG_MAGIC
             sample_Sum256_len sample_md4_len sample_weak_u32
             9%nat abcde 4 16 RS_MD4_SIG_MAGIC _
             RS_valid_config_MD4_16 ltac:(done) ltac:(simpl; lia) eq_refl).
  reflexivity.
Defined.

Lemma Signature_input_error_witness :
  fst (fst (sSignature 9 (MkFailingReader abcde (ErrStream 104)) (NewBuffer [])
              4 16 RS_MD4_SIG_MAGIC)) = Err (ErrStream 104) /\
  length (Bytes (snd (sSignature 9 (MkFailingReader abcde (ErrStream 104))
                        (NewBuffer []) 4 16 RS_MD4_SIG_MAGIC))) = 52%nat.
Proof.
  rewrite (sample_args Signature_input_error 9%nat abcde (ErrStream 104) 4 16
             RS_MD4_SIG_MAGIC RS_valid_config_MD4_16 ltac:(done) ltac:(done)
             ltac:(simpl; lia)).
  by split.
Defined.

Lemma Signature_OneByteReader_blocks_witness :
  exists sig out,
    sSignature 9 (MkOneByteReader (NewReader abcde)) (NewBuffer []) 4 16
        RS_MD4_SIG_MAGIC = (Ok sig, MkOneByteReader (NewReader []), out) /\
    length (strongSigs sig) = 5%nat.
Proof.
  destruct (sample_args Signature_OneByteReader_blocks 9%nat abcde 4 16
              RS_MD4_SIG_MAGIC RS_valid_config_MD4_16 ltac:(done)
              ltac:(simpl; lia)) as (sig & out & Hb & _ & Hlen).
  by exists sig, out.
Defined.

Lemma Signature_DataEOFReader_blocks_witness :
  exists sig out,
    sSignature 9 (MkDataEOFReader abcdwxyz) (NewBuffer []) 4 16
        RS_MD4_SIG_MAGIC = (Ok sig, MkDataEOFReader [], out) /\
    length (strongSigs sig) = 1%nat.
Proof.
  destruct (sample_args Signature_DataEOFReader_blocks 9%nat abcdwxyz 4 16
              RS_MD4_SIG_MAGIC RS_valid_config_MD4_16 ltac:(done)
              ltac:(simpl; lia)) as (sig & out & Hb & _ & Hlen).
  by exists sig, out.
Defined.

Lemma Signature_of_concatenation_witness :
  exists sa oa sb ob sab oab,
    sSignature 9 (NewReader [x61; x62; x63; x64]) (NewBuffer []) 4 16
        RS_MD4_SIG_MAGIC = (Ok sa, NewReader [], NewBuffer oa) /\
    sSignature 9 (NewReader [x77; x78; x79; x7a]) (NewBuffer []) 4 16
        RS_MD4_SIG_MAGIC = (Ok sb, NewReader [], NewBuffer ob) /\
    sSignature 9 (NewReader abcdwxyz) (NewBuffer []) 4 16
        RS_MD4_SIG_MAGIC = (Ok sab, NewReader [], NewBuffer oab) /\
    strongSigs sab = strongSigs sa ++ strongSigs sb /\
    oab = oa ++ skipn 12 ob.
Proof.
  exact (sample_args Signature_of_concatenation 9%nat [x61; x62; x63; x64]
           [x77; x78; x79; x7a] 4 16 RS_MD4_SIG_MAGIC RS_valid_config_MD4_16
           ltac:(done) ltac:(done) ltac:(simpl; lia)).
Defined.

Lemma CalcStrongSum_prefix_witness :
  exists s s',
    sCalcStrongSum abcde RS_MD4_SIG_MAGIC 8 = Ok s /\
    sCalcStrongSum abcde RS_MD4_SIG_MAGIC 16 = Ok s' /\
    s = firstn 8 s'.
Proof.
  destruct (CalcStrongSum_prefix sample_Sum256 sample_md4
              RS_BLAKE2_SIG_MAGIC RS_MD4_SIG_MAGIC
              sample_Sum256_len sample_md4_len abcde RS_MD4_SIG_MAGIC 8 16
              RS_valid_config_MD4_16 ltac:(done))
    as (s & s' & H1 & H2 & H3 & _).
  by exists s, s'.
Defined.

Lemma ReadSignature_index_well_formed_witness :
  exists sig,
    ReadSignature 9
        (MkOneByteReader
           (NewReader (encode_header 0xdeadbeef 0 1 ++
                       encode_records [(7, [x01]); (7, [x02])]))) =
      (Ok sig, MkOneByteReader (NewReader [])) /\
    Forall (fun s => length s = 1%nat) (strongSigs sig) /\
    (forall w k, weak2block sig !! w = Some k -> (k < 2)%nat).
Proof.
  eexists.
  assert (ReadSignature 9
            (MkOneByteReader
               (NewReader (encode_header 0xdeadbeef 0 1 ++
                           encode_records [(7, [x01]); (7, [x02])]))) = _)
    as Hdec by (vm_compute; reflexivity).
  split; [exact Hdec|].
  exact (ReadSignature_index_well_formed _ _ _ _ Hdec).
Defined.

Lemma ReadSignature_accepts_only_encodings_witness :
  exists sig,
    ReadSignature 9
        (NewReader (encode_header 0xdeadbeef 0 1 ++
                    encode_records [(7, [x01]); (7, [x02])])) =
      (Ok sig, NewReader []) /\
    exists entries,
      encode_header 0xdeadbeef 0 1 ++ encode_records [(7, [x01]); (7, [x02])] =
        encode_header (sigType sig) (blockLen sig) (strongLen sig)
          ++ encode_records entries /\
      strongSigs sig = map snd entries.
Proof.
  eexists.
  assert (ReadSignature 9
            (NewReader (encode_header 0xdeadbeef 0 1 ++
                        encode_records [(7, [x01]); (7, [x02])])) = _)
    as Hdec by (vm_compute; reflexivity).
  split; [exact Hdec|].
  destruct (ReadSignature_accepts_only_encodings _ _ _ _ Hdec)
    as (_ & entries & Hl & _ & Hs & _).
  by exists entries.
Defined.

Lemma ReadSignature_truncated_header_witness :
  ReadSignature 2 (NewReader [x72; x73; x01; x36; x00]) =
    (Err ErrUnexpectedEOF, NewReader []) /\
  ReadSignature 2 (NewReader [x72; x73; x01; x36]) = (Err EOF, NewReader []).
Proof.
  split.
  - exact (ReadSignature_truncated_header 2 [x72; x73; x01; x36; x00]
             ltac:(simpl; lia) ltac:(lia)).
  - exact (ReadSignature_truncated_header 2 [x72; x73; x01; x36]
             ltac:(simpl; lia) ltac:(lia)).
Defined.

Lemma ReadSignature_truncated_weak_sum_witness :
  Forall (wf_entry 2) [(7, [x01; x02])] /\
  ReadSignature 4
      (NewReader (encode_header RS_MD4_SIG_MAGIC 4 2 ++
                  encode_records [(7, [x01; x02])] ++ [x00; x00])) =
    (Err ErrUnexpectedEOF, NewReader []).
Proof.
  assert (Forall (wf_entry 2) [(7, [x01; x02])]) as Hwf by by repeat constructor.
  split; [exact Hwf|].
  exact (ReadSignature_truncated_weak_sum RS_MD4_SIG_MAGIC 4 2 _ [x00; x00] 4
           ltac:(done) ltac:(done) ltac:(done) Hwf
           ltac:(simpl; lia) ltac:(simpl; lia)).
Defined.

Lemma decode_of_build_fails_for_strongLen_0_witness :
  exists sig out,
    sSignature 9 (NewReader abcde) (NewBuffer []) 4 0 RS_MD4_SIG_MAGIC =
      (Ok sig, NewReader [], NewBuffer out) /\
    ReadSignature 9 (NewReader out) = (Err EOF, NewReader []).
Proof.
  exact (decode_of_build_fails_for_strongLen_0 sample_Sum256 sample_md4
           sample_weak RS_BLAKE2_SIG_MAGIC RS_MD4_SIG_MAGIC
           sample_Sum256_len sample_md4_len sample_weak_u32
           9%nat 9%nat x61 [x62; x63; x64; x65] 4 RS_MD4_SIG_MAGIC
           RS_valid_config_MD4_0 ltac:(done) ltac:(done) ltac:(done)
           ltac:(simpl; lia) ltac:(simpl; lia)).
Defined.

Lemma ReadSignature_OneByteReader_fails_witness :
  wf_entry 2 (7, [x01; x02]) /\
  fst (ReadSignature 5
         (MkOneByteReader
            (NewReader (encode_header RS_MD4_SIG_MAGIC 4 2 ++
                        encode_records [(7, [x01; x02])]))))
  = Err (Errorf_short_strong_hash 1 2).
Proof.
  assert (wf_entry 2 (7, [x01; x02])) as Hwf by by split.
  split; [exact Hwf|].
  exact (ReadSignature_OneByteReader_fails RS_MD4_SIG_MAGIC 4 2 _ [] 5
           ltac:(done) ltac:(done) ltac:(done) Hwf ltac:(done) ltac:(lia)).
Defined.

Lemma decode_of_build_fails_on_short_reads_witness :
  valid_config RS_BLAKE2_SIG_MAGIC RS_MD4_SIG_MAGIC RS_MD4_SIG_MAGIC 16 /\
  exists sig out r',
    sSignature 9 (NewReader abcdwxyz) (NewBuffer []) 4 16 RS_MD4_SIG_MAGIC =
      (Ok sig, NewReader [], NewBuffer out) /\
    ReadSignature 9 (MkOneByteReader (NewReader out)) =
      (Err (Errorf_short_strong_hash 1 16), r').
Proof.
  split; [exact RS_valid_config_MD4_16|].
  exact (decode_of_build_fails_on_short_reads sample_Sum256 sample_md4
           sample_weak RS_BLAKE2_SIG_MAGIC RS_MD4_SIG_MAGIC
           sample_Sum256_len sample_md4_len sample_weak_u32
           9%nat 9%nat x61 [x62; x63; x64; x77; x78; x79; x7a] 4 16
           RS_MD4_SIG_MAGIC RS_valid_config_MD4_16
           ltac:(done) ltac:(done) ltac:(done) ltac:(done)
           ltac:(simpl; lia) ltac:(lia)).
Defined.

Lemma ReadSignature_rejects_whole_records_on_short_reads_witness :
  Forall (wf_entry 2) [(7, [x01; x02]); (7, [x03; x04])] /\
  ReadSignature 7
      (NewReader (encode_header RS_MD4_SIG_MAGIC 4 2 ++
                  encode_records [(7, [x01; x02]); (7, [x03; x04])])) =
    (Ok (MkSignatureType RS_MD4_SIG_MAGIC 4 2 [[x01; x02]; [x03; x04]]
           (<[7 := 1%nat]> (<[7 := 0%nat]> ∅))), NewReader []) /\
  ReadSignature 7
      (MkOneByteReader
         (NewReader (encode_header RS_MD4_SIG_MAGIC 4 2 ++
                     encode_records [(7, [x01; x02]); (7, [x03; x04])]))) =
    (Err (Errorf_short_strong_hash 1 2),
     MkOneByteReader (NewReader ([x02] ++ encode_records [(7, [x03; x04])]))).
Proof.
  assert (Forall (wf_entry 2) [(7, [x01; x02]); (7, [x03; x04])]) as Hwf
    by by repeat constructor.
  split; [exact Hwf|].
  exact (ReadSignature_rejects_whole_records_on_short_reads
           RS_MD4_SIG_MAGIC 4 2 (7, [x01; x02]) [(7, [x03; x04])] 7
           ltac:(done) ltac:(done) ltac:(done) Hwf ltac:(done)
           ltac:(simpl; lia)).
Defined.

Lemma ReadSignature_fails_under_complete_header_witness :
  0xdeadbeef <> RS_BLAKE2_SIG_MAGIC /\ 0xdeadbeef <> RS_MD4_SIG_MAGIC /\
  Forall (wf_entry 0) [(1, []); (2, [])] /\
  ReadSignature 3
      (NewReader (encode_header 0xdeadbeef 0 0 ++
                  encode_records [(1, []); (2, [])])) =
    (Err EOF, NewReader []) /\
  Forall (wf_entry 3) [(1, [x01; x02; x03])] /\
  fst (ReadSignature 5
         (MkOneByteReader
            (NewReader (encode_header 0xdeadbeef 0 3 ++
                        encode_records [(1, [x01; x02; x03])])))) =
    Err (Errorf_short_strong_hash 1 3).
Proof.
  assert (Forall (wf_entry 0) [(1, []); (2, [])]) as Hwf0
    by by repeat constructor.
  assert (Forall (wf_entry 3) [(1, [x01; x02; x03])]) as Hwf3
    by by repeat constructor.
  destruct ReadSignature_fails_under_complete_header as (Hzero & Hshort & _).
  split; [done|]. split; [done|]. split; [exact Hwf0|].
  split; [|split; [exact Hwf3|]].
  - exact (Hzero 0xdeadbeef 0 _ 3%nat ltac:(done) ltac:(done) Hwf0
             ltac:(done) ltac:(simpl; lia)).
  - by rewrite (Hshort 0xdeadbeef 0 3 (1, [x01; x02; x03]) [] 5%nat
                  ltac:(done) ltac:(done) ltac:(done) Hwf3 ltac:(done)
                  ltac:(lia)).
Defined.
